(** * SpotPages: the compact tree navigator and the game-state reconstructor

    A shallow embedding of
      - [src/utils/poker-utils.ts]            (seat names, amounts in big blinds,
                                               stack reconstruction, all-in test),
      - the [PokerTablePreview] component     (pot and per-street contributions,
                                               button, status and stacks of the seats,
                                               action labels),
      - the [HierarchicalMenu] component      (action labels),
      - [types/optimized-tree]                (compact tree schema, bit flags,
                                               conversion to and from legacy nodes),
      - [src/utils/compact-tree-navigator.ts] (navigator, conversion of a legacy
                                               tree and tree validation),
    followed by the definitions the statements need and by the properties of
    these functions.

    Conventions.  A JavaScript [number] that holds a chip amount, a seat index,
    a street or a flag word is an integer of [Z]; sums and differences of
    such integers are exact in JavaScript below 2^53.  The places where the
    sources leave the integers, [formatAmount] and [formatBB], are modelled
    with the binary64 rounding written out.  An optional field ([p], [amt], [n]) is an
    [option]; [undefined] and [null] are both [None].  Record projections
    carry a prefix ([act_t] for [CompactAction.t], [node_p] for
    [CompactTreeNode.p], ...) because the source's one-letter field names
    would capture every variable of that name. *)

From stdpp Require Import gmap strings list pretty.

Open Scope Z_scope.

(** * Part I: the program *)

(** ** The JavaScript operations the sources rely on *)

Module JS.

(** [x || d] on numbers: [0] is falsy. *)
Definition num_or (x d : Z) : Z := if decide (x = 0) then d else x.

(** [x || d] where [x] may be [undefined]. *)
Definition opt_or (x : option Z) (d : Z) : Z :=
  match x with
  | Some v => num_or v d
  | None => d
  end.

(** [arr[i]] for reading: [undefined] outside the array, also at a negative
    index. *)
Definition index {A} (arr : list A) (i : Z) : option A :=
  if decide (0 <= i) then arr !! Z.to_nat i else None.

(** [arr[i] = f(arr[i])] where the source has ensured [i < arr.length].  At a
    negative [i] JavaScript writes a property that is not an element, so the
    elements stay as they are. *)
Definition update (arr : list Z) (i : Z) (f : Z -> Z) : list Z :=
  if decide (0 <= i) then alter f (Z.to_nat i) arr else arr.

(** [arr.indexOf(x)], [-1] when absent. *)
Fixpoint indexOf (arr : list string) (x : string) : Z :=
  match arr with
  | [] => -1
  | y :: arr' =>
      if decide (y = x) then 0
      else let r := indexOf arr' x in if decide (r = -1) then -1 else r + 1
  end.

(** Truthiness of an optional string: [undefined], [null] and the empty string
    are falsy. *)
Definition truthy (s : option string) : bool :=
  match s with
  | Some v => bool_decide (v <> EmptyString)
  | None => false
  end.

(** [s!] after a truthiness test. *)
Definition get (s : option string) : string := default EmptyString s.

(** How a call completes. *)
Inductive completion (A : Type) : Type :=
| Normal (v : A)
| Throw (err : string).
Global Arguments Normal {A} v.
Global Arguments Throw {A} err.

End JS.

(** ** src/utils/poker-utils.ts *)

Record Action := {
  player : Z;
  type : string;
  amount : Z;
  street : Z
}.

Record Blinds := { sb : Z; bb : Z; ante : Z }.

(** [SettingsData] is declared in [contexts/DataContext]; these are the fields
    the functions below read. *)
Record SettingsData := {
  stacks : list Z;
  blinds : Blinds;
  playerCount : Z
}.

Definition getPositionNames (playerCount : Z) : list string :=
  if decide (playerCount = 2) then ["SB"; "BB"]
  else if decide (playerCount = 3) then ["BU"; "SB"; "BB"]
  else if decide (playerCount = 4) then ["CO"; "BU"; "SB"; "BB"]
  else if decide (playerCount = 5) then ["HJ"; "CO"; "BU"; "SB"; "BB"]
  else if decide (playerCount = 6) then ["MP"; "HJ"; "CO"; "BU"; "SB"; "BB"]
  else if decide (playerCount = 7) then ["UTG"; "MP"; "HJ"; "CO"; "BU"; "SB"; "BB"]
  else if decide (playerCount = 8) then
    ["UTG"; "UTG+1"; "MP"; "HJ"; "CO"; "BU"; "SB"; "BB"]
  else if decide (playerCount = 9) then
    ["UTG"; "UTG+1"; "UTG+2"; "MP"; "HJ"; "CO"; "BU"; "SB"; "BB"]
  else ["SB"; "BB"].

(** The body of the [forEach] of [calculatePlayerStackAbsolute]. *)
Definition stackStep (playerIndex : Z) (currentStack : Z) (action : Action) : Z :=
  if bool_decide (player action = playerIndex)
     && (bool_decide (type action = "C") || bool_decide (type action = "R")
         || bool_decide (type action = "A"))
  then
    let actionAmount := JS.num_or (amount action) 0 in
    currentStack - actionAmount
  else currentStack.

Definition calculatePlayerStackAbsolute
    (playerIndex : Z) (settings : SettingsData) (actionSequence : list Action) : Z :=
  let initialStacks := stacks settings in
  let currentStack := JS.opt_or (JS.index initialStacks playerIndex) 4000000 in
  let sb := JS.num_or (sb (blinds settings)) 0 in
  let bb := JS.num_or (bb (blinds settings)) 0 in
  let ante := JS.num_or (ante (blinds settings)) 0 in
  let positions := getPositionNames (JS.num_or (playerCount settings) 2) in
  let playerPosition := JS.index positions playerIndex in
  let currentStack :=
    if decide (playerPosition = Some "SB") then currentStack - sb else currentStack in
  let currentStack :=
    if decide (playerPosition = Some "BB") then currentStack - bb else currentStack in
  let currentStack := if decide (ante > 0) then currentStack - ante else currentStack in
  let currentStack := foldl (stackStep playerIndex) currentStack actionSequence in
  Z.max 0 currentStack.

(** The function has no [throw] and calls nothing that throws (optional
    chaining, an array read, [forEach], [Math.max]): every call completes
    normally with the number computed above. *)
Definition calculatePlayerStackAbsolute_call
    (playerIndex : Z) (settings : SettingsData) (actionSequence : list Action)
    : JS.completion Z :=
  JS.Normal (calculatePlayerStackAbsolute playerIndex settings actionSequence).

Definition isActionAllIn
    (actionAmount : Z) (playerIndex : Z) (settings : SettingsData)
    (actionSequence : list Action) : bool :=
  let playerStackBefore :=
    calculatePlayerStackAbsolute playerIndex settings actionSequence in
  bool_decide (actionAmount >= playerStackBefore).

(** ** PokerTablePreview: calculatePotAndContributions *)

Record PotAndContributions := {
  totalPot : Z;
  playerCurrentStreetContributions : list Z;
  playerTotalContributions : list Z
}.

(** The body of the [forEach] over [currentNode.sequence]; [currentStreet] is
    [compactCurrentNode.s]. *)
Definition potStep (currentStreet : Z) (acc : PotAndContributions) (action : Action)
    : PotAndContributions :=
  let actionAmount := JS.num_or (amount action) 0 in
  let actionPlayer := player action in
  let actionStreet := street action in
  if bool_decide (type action <> "F") && bool_decide (type action <> "X")
     && bool_decide (actionAmount > 0)
  then
    let totalPot := totalPot acc + actionAmount in
    if decide (actionPlayer < Z.of_nat (length (playerTotalContributions acc))) then
      let total :=
        JS.update (playerTotalContributions acc) actionPlayer (fun c => c + actionAmount) in
      let current :=
        if decide (actionStreet = currentStreet) then
          if decide (type action = "C") then
            JS.update (playerCurrentStreetContributions acc) actionPlayer
              (fun c => c + actionAmount)
          else if decide (type action = "R") then
            JS.update (playerCurrentStreetContributions acc) actionPlayer
              (fun _ => actionAmount)
          else playerCurrentStreetContributions acc
        else playerCurrentStreetContributions acc in
      {| totalPot := totalPot;
         playerCurrentStreetContributions := current;
         playerTotalContributions := total |}
    else
      {| totalPot := totalPot;
         playerCurrentStreetContributions := playerCurrentStreetContributions acc;
         playerTotalContributions := playerTotalContributions acc |}
  else acc.

(** The result is [None] outside the domain of this embedding: with fewer than
    two seats a blind seat lies beyond the end of the two arrays, where the
    source's [+=] would grow the array with a [NaN]. *)
Definition calculatePotAndContributions
    (settings : SettingsData) (currentStreet : Z) (sequence : list Action)
    : option PotAndContributions :=
  if decide (2 <= playerCount settings) then
    let totalPot := 0 in
    let current := replicate (Z.to_nat (playerCount settings)) 0 in
    let total := replicate (Z.to_nat (playerCount settings)) 0 in
    let positions := getPositionNames (playerCount settings) in
    let ante := JS.num_or (ante (blinds settings)) 0 in
    let totalPot :=
      if decide (ante > 0) then totalPot + ante * playerCount settings else totalPot in
    let sbIndex := JS.indexOf positions "SB" in
    let bbIndex := JS.indexOf positions "BB" in
    let sb := JS.num_or (sb (blinds settings)) 0 in
    let bb := JS.num_or (bb (blinds settings)) 0 in
    let totalPot := totalPot + (sb + bb) in
    let '(total, current) :=
      if decide (sbIndex <> -1) then
        (JS.update total sbIndex (fun c => c + sb),
         if decide (currentStreet = 0) then JS.update current sbIndex (fun _ => sb)
         else current)
      else (total, current) in
    let '(total, current) :=
      if decide (bbIndex <> -1) then
        (JS.update total bbIndex (fun c => c + bb),
         if decide (currentStreet = 0) then JS.update current bbIndex (fun _ => bb)
         else current)
      else (total, current) in
    Some (foldl (potStep currentStreet)
            {| totalPot := totalPot;
               playerCurrentStreetContributions := current;
               playerTotalContributions := total |}
            sequence)
  else None.

(** ** Number formatting: [Number.prototype.toString] and [toFixed] *)

Module Double.

(** A positive finite binary64 value, [mant * 2 ^ expo]. *)
Record t := { mant : Z; expo : Z }.

(** [num / den] rounded to the nearest integer, ties to even. *)
Definition round_half_even (num den : Z) : Z :=
  let q := num / den in
  let r := num mod den in
  if decide (2 * r < den) then q
  else if decide (den < 2 * r) then q + 1
  else if Z.even q then q else q + 1.

(** [a / b] for integers [0 < a, b < 2^53]: the quotient rounded to 53
    significant bits, ties to even, as IEEE 754 prescribes.  [lg] is
    [floor (log2 (a / b))], so that the scaled quotient lies in
    [[2^52, 2^53)] before rounding. *)
Definition div (a b : Z) : t :=
  let l := Z.log2 a - Z.log2 b in
  let lg :=
    if decide (b * 2 ^ Z.max 0 l <= a * 2 ^ Z.max 0 (- l)) then l else l - 1 in
  let e := lg - 52 in
  {| mant := round_half_even (a * 2 ^ Z.max 0 (- e)) (b * 2 ^ Z.max 0 e);
     expo := e |}.

Fixpoint zeros (count : nat) : string :=
  match count with
  | O => EmptyString
  | S count' => "0" +:+ zeros count'
  end.

(** Zeros in front, up to [width] characters. *)
Definition pad_zeros (width : nat) (s : string) : string :=
  zeros (width - String.length s) +:+ s.

(** The integer nearest to [x * 10^digits], the larger one at a tie. *)
Definition nearest (x : t) (digits : nat) : Z :=
  let scale := 10 ^ Z.of_nat digits in
  let num := mant x * scale * 2 ^ Z.max 0 (expo x) in
  let den := 2 ^ Z.max 0 (- expo x) in
  (2 * num + den) / (2 * den).

(** [x.toFixed(digits)] for [0 <= x < 1e21]: that integer [n], printed with a
    point before its last [digits] digits. *)
Definition toFixed (x : t) (digits : nat) : string :=
  let scale := 10 ^ Z.of_nat digits in
  let n := nearest x digits in
  match digits with
  | O => pretty n
  | S _ => pretty (n / scale) +:+ "." +:+ pad_zeros digits (pretty (n mod scale))
  end.

End Double.

(** ** types/optimized-tree *)

Record CompactAction := {
  act_t : string;
  act_amt : option Z;
  act_n : option string
}.

Record CompactTreeNode := {
  node_id : string;
  node_p : option string;
  node_pl : Z;
  node_s : Z;
  node_a : list CompactAction;
  node_d : Z;
  node_f : Z
}.

(** [nodes] holds the entries of the [Record<string, CompactTreeNode>] in the
    order [Object.entries] enumerates them.  [meta] is read by [getTreeStats]
    only and is left out. *)
Record OptimizedTree := {
  nodes : list (string * CompactTreeNode);
  root : string
}.

Record BreadcrumbItem := {
  bc_nodeId : string;
  bc_label : string;
  bc_player : Z;
  bc_action : string
}.

Record NavigationAction := {
  nav_label : string;
  nav_targetNode : string;
  nav_type : string;
  nav_amount : Z
}.

Module CompactTreeUtils.

(** [(node.f & 1) === 1] *)
Definition isTerminal (node : CompactTreeNode) : bool :=
  bool_decide (Z.land (node_f node) 1 = 1).

(** [(node.f & 2) === 2] *)
Definition hasHandData (node : CompactTreeNode) : bool :=
  bool_decide (Z.land (node_f node) 2 = 2).

End CompactTreeUtils.

(** ** src/utils/compact-tree-navigator.ts: CompactTreeNavigator *)

Definition formatAmount (amount : Z) : string :=
  if decide (amount >= 1000000) then
    Double.toFixed (Double.div amount 1000000) 1 +:+ "M"
  else if decide (amount >= 1000) then
    Double.toFixed (Double.div amount 1000) 0 +:+ "K"
  else pretty amount.

Definition formatActionLabel (type : string) (amount : Z) : string :=
  if decide (type = "F") then "Fold"
  else if decide (type = "C") then "Call"
  else if decide (type = "X") then "Check"
  else if decide (type = "R") then
    if decide (amount > 0) then "Raise " +:+ formatAmount amount else "Raise"
  else type.

Record CompactTreeNavigator := {
  tree : OptimizedTree;
  nodeCache : gmap string CompactTreeNode;
  pathCache : gmap string string;
  breadcrumbCache : gmap string (list BreadcrumbItem)
}.

(** [buildCache]: one [nodeCache.set(id, node)] per entry, in order. *)
Definition buildCache (tree : OptimizedTree) : gmap string CompactTreeNode :=
  foldl (fun cache entry => <[entry.1 := entry.2]> cache) ∅ (nodes tree).

Definition constructor (tree : OptimizedTree) : CompactTreeNavigator :=
  {| tree := tree;
     nodeCache := buildCache tree;
     pathCache := ∅;
     breadcrumbCache := ∅ |}.

Definition clearCaches (nav : CompactTreeNavigator) : CompactTreeNavigator :=
  {| tree := tree nav;
     nodeCache := nodeCache nav;
     pathCache := ∅;
     breadcrumbCache := ∅ |}.

(** The [while] loop of [getBreadcrumbs].  It runs for ever on a cycle of
    parent links, so the embedding counts iterations down from [fuel] and
    answers [None] when they run out.  The result is the final [currentNode]
    and the trail built so far. *)
Fixpoint breadcrumbsLoop (fuel : nat) (cache : gmap string CompactTreeNode)
    (currentNode : option CompactTreeNode) (breadcrumbs : list BreadcrumbItem)
    : option (option CompactTreeNode * list BreadcrumbItem) :=
  match currentNode with
  | Some cur =>
      if JS.truthy (node_p cur) then
        match fuel with
        | O => None
        | S fuel' =>
            match cache !! JS.get (node_p cur) with
            | None => Some (currentNode, breadcrumbs)
            | Some parentNode =>
                let actionToChild :=
                  List.find (fun action =>
                               bool_decide (act_n action = Some (node_id cur)))
                            (node_a parentNode) in
                let breadcrumbs :=
                  match actionToChild with
                  | Some action =>
                      {| bc_nodeId := JS.get (node_p cur);
                         bc_label :=
                           formatActionLabel (act_t action)
                             (JS.opt_or (act_amt action) 0);
                         bc_player := node_pl parentNode;
                         bc_action := act_t action |} :: breadcrumbs
                  | None => breadcrumbs
                  end in
                breadcrumbsLoop fuel' cache (Some parentNode) breadcrumbs
            end
        end
      else Some (currentNode, breadcrumbs)
  | None => Some (None, breadcrumbs)
  end.

(** The uncached part of [getBreadcrumbs]: the loop, then the root entry. *)
Definition computeBreadcrumbs (fuel : nat) (cache : gmap string CompactTreeNode)
    (nodeId : string) : option (list BreadcrumbItem) :=
  '(currentNode, breadcrumbs) ← breadcrumbsLoop fuel cache (cache !! nodeId) [];
  Some match currentNode with
       | Some cur =>
           if negb (JS.truthy (node_p cur)) then
             {| bc_nodeId := node_id cur;
                bc_label := "Start";
                bc_player := node_pl cur;
                bc_action := "ROOT" |} :: breadcrumbs
           else breadcrumbs
       | None => breadcrumbs
       end.

(** [getBreadcrumbs] returns the trail and the navigator with its cache
    filled. *)
Definition getBreadcrumbs (fuel : nat) (nav : CompactTreeNavigator) (nodeId : string)
    : option (list BreadcrumbItem * CompactTreeNavigator) :=
  match breadcrumbCache nav !! nodeId with
  | Some cached => Some (cached, nav)
  | None =>
      breadcrumbs ← computeBreadcrumbs fuel (nodeCache nav) nodeId;
      Some (breadcrumbs,
            {| tree := tree nav;
               nodeCache := nodeCache nav;
               pathCache := pathCache nav;
               breadcrumbCache := <[nodeId := breadcrumbs]> (breadcrumbCache nav) |})
  end.

Definition getAvailableActions (nav : CompactTreeNavigator) (nodeId : string)
    : list NavigationAction :=
  match nodeCache nav !! nodeId with
  | None => []
  | Some node =>
      (fun action =>
         {| nav_label := formatActionLabel (act_t action) (JS.opt_or (act_amt action) 0);
            nav_targetNode := JS.get (act_n action);
            nav_type := act_t action;
            nav_amount := JS.opt_or (act_amt action) 0 |})
        <$> List.filter (fun action => JS.truthy (act_n action)) (node_a node)
  end.

(** [navigateByPath]: [None] is the source's [null]. *)
Fixpoint navigateByPath (nav : CompactTreeNavigator) (startNodeId : string)
    (actionTypes : list string) : option string :=
  match actionTypes with
  | [] => Some startNodeId
  | actionType :: rest =>
      match nodeCache nav !! startNodeId with
      | None => None
      | Some node =>
          match List.find (fun a => bool_decide (act_t a = actionType)
                                    && JS.truthy (act_n a)) (node_a node) with
          | None => None
          | Some action =>
              if negb (JS.truthy (act_n action)) then None
              else navigateByPath nav (JS.get (act_n action)) rest
          end
      end
  end.

(** The name [CompactTreeUtils] inside compact-tree-navigator.ts.  The file
    takes only types from types/optimized-tree ([import type], five
    interfaces), so the name is bound to the constant the file itself
    declares after the class: an object with the three methods
    [convertToCompact], [calculateSizeReduction] and [validateCompactTree].
    It has no [isTerminal]; the class of that name in types/optimized-tree,
    which has one, is not in scope. *)
Module NavigatorScope.

Definition typeError : string :=
  "TypeError: CompactTreeUtils.isTerminal is not a function".

(** [CompactTreeUtils.isTerminal(node)]: the property is [undefined], and
    calling it throws. *)
Definition isTerminal (node : CompactTreeNode) : JS.completion bool :=
  JS.Throw typeError.

End NavigatorScope.

(** The mutable state of one [getTerminalNodes] call: the [visited] set and
    the [terminals] array it pushes to. *)
Record TraverseState := {
  visited : gset string;
  terminals : list string
}.

(** The closure [traverse] of [getTerminalNodes].  [fuel] bounds the depth of
    the recursion; [None] means it ran out.  An exception leaves the
    [forEach] and every enclosing call. *)
Fixpoint traverse (fuel : nat) (cache : gmap string CompactTreeNode)
    (nodeId : string) (st : TraverseState) : option (JS.completion TraverseState) :=
  match fuel with
  | O => None
  | S fuel' =>
      if decide (nodeId ∈ visited st) then Some (JS.Normal st)
      else
        let st := {| visited := {[nodeId]} ∪ visited st; terminals := terminals st |} in
        match cache !! nodeId with
        | None => Some (JS.Normal st)
        | Some node =>
            match NavigatorScope.isTerminal node with
            | JS.Throw err => Some (JS.Throw err)
            | JS.Normal true =>
                Some (JS.Normal {| visited := visited st;
                                   terminals := terminals st ++ [nodeId] |})
            | JS.Normal false =>
                foldl (fun acc action =>
                         match acc with
                         | Some (JS.Normal st) =>
                             if JS.truthy (act_n action)
                             then traverse fuel' cache (JS.get (act_n action)) st
                             else Some (JS.Normal st)
                         | _ => acc
                         end)
                      (Some (JS.Normal st)) (node_a node)
            end
        end
  end.

(** [getTerminalNodes], with one more unit of fuel than there are nodes: the
    recursion only goes deeper at an indexed node that was not visited
    before. *)
Definition getTerminalNodes (nav : CompactTreeNavigator) (startNodeId : string)
    : option (JS.completion (list string)) :=
  match traverse (S (size (nodeCache nav))) (nodeCache nav) startNodeId
          {| visited := ∅; terminals := [] |} with
  | Some (JS.Normal st) => Some (JS.Normal (terminals st))
  | Some (JS.Throw err) => Some (JS.Throw err)
  | None => None
  end.

(** ** src/utils/compact-tree-navigator.ts: CompactTreeUtils.validateCompactTree *)

Record ValidationResult := {
  isValid : bool;
  errors : list string
}.

(** [arr.forEach((x, index) => ...)] threading a state, from [index]. *)
Fixpoint forEachIndexed {A St : Type} (body : St -> A -> nat -> St)
    (arr : list A) (index : nat) (st : St) : St :=
  match arr with
  | [] => st
  | x :: arr' => forEachIndexed body arr' (S index) (body st x index)
  end.

Definition checkAction (nodeIds : gset string) (nodeId : string)
    (errors : list string) (action : CompactAction) (index : nat) : list string :=
  if JS.truthy (act_n action) && bool_decide (JS.get (act_n action) ∉ nodeIds) then
    errors ++ ["Node " +:+ nodeId +:+ " action " +:+ pretty index
               +:+ " references non-existent node " +:+ JS.get (act_n action)]
  else errors.

Definition checkNode (nodeIds : gset string) (errors : list string)
    (entry : string * CompactTreeNode) : list string :=
  let '(nodeId, node) := entry in
  let errors :=
    if JS.truthy (node_p node) && bool_decide (JS.get (node_p node) ∉ nodeIds) then
      errors ++ ["Node " +:+ nodeId +:+ " references non-existent parent "
                 +:+ JS.get (node_p node)]
    else errors in
  forEachIndexed (checkAction nodeIds nodeId) (node_a node) 0%nat errors.

Definition validateCompactTree (tree : OptimizedTree) : ValidationResult :=
  let errors := [] in
  let nodeIds : gset string := list_to_set (nodes tree).*1 in
  let errors :=
    if bool_decide (root tree ∉ nodeIds) then
      errors ++ ["Root node " +:+ root tree +:+ " not found"]
    else errors in
  let errors := foldl (checkNode nodeIds) errors (nodes tree) in
  {| isValid := bool_decide (length errors = 0%nat); errors := errors |}.

(** ** More of the same files *)

(** *** PokerTablePreview: the other table computations *)

Definition getButtonPlayerIndex (settings : SettingsData) : Z :=
  let positions := getPositionNames (playerCount settings) in
  if decide (playerCount settings = 2) then JS.indexOf positions "SB"
  else JS.indexOf positions "BU".

(** The loop of [getPlayerStatus] runs from the last action to the first and
    stops at the first action of the player. *)
Definition getPlayerStatus (sequence : list Action) (playerIndex : Z) : string :=
  let lastActionByPlayer :=
    List.find (fun action => bool_decide (player action = playerIndex))
              (rev sequence) in
  match lastActionByPlayer with
  | Some action => if decide (type action = "F") then "folded" else "active"
  | None => "active"
  end.

(** The body of the [positions.forEach] of [getPlayerStacks]. *)
Definition postBlinds (sb bb ante : Z) (stacks : list Z) (pos : string) (index : nat)
    : list Z :=
  let stacks :=
    if bool_decide (pos = "SB") && bool_decide (index < length stacks)%nat
    then JS.update stacks (Z.of_nat index) (fun c => c - sb) else stacks in
  let stacks :=
    if bool_decide (pos = "BB") && bool_decide (index < length stacks)%nat
    then JS.update stacks (Z.of_nat index) (fun c => c - bb) else stacks in
  if bool_decide (ante > 0) && bool_decide (index < length stacks)%nat
  then JS.update stacks (Z.of_nat index) (fun c => c - ante) else stacks.

(** The body of the [sequence.forEach] of [getPlayerStacks]. *)
Definition payAction (stacks : list Z) (action : Action) : list Z :=
  let actionAmount := JS.num_or (amount action) 0 in
  let actionPlayer := player action in
  if bool_decide (type action <> "F") && bool_decide (type action <> "X")
     && bool_decide (actionAmount > 0)
  then
    if decide (actionPlayer < Z.of_nat (length stacks))
    then JS.update stacks actionPlayer (fun c => c - actionAmount)
    else stacks
  else stacks.

Definition getPlayerStacks (settings : SettingsData) (sequence : list Action)
    : list Z :=
  let stacks := stacks settings in
  let positions := getPositionNames (playerCount settings) in
  let sb := JS.num_or (sb (blinds settings)) 0 in
  let bb := JS.num_or (bb (blinds settings)) 0 in
  let ante := JS.num_or (ante (blinds settings)) 0 in
  let stacks := forEachIndexed (postBlinds sb bb ante) positions 0%nat stacks in
  foldl payAction stacks sequence.

(** *** types/optimized-tree: the other static methods of CompactTreeUtils *)

Module Int32.

(** [ToInt32], which [|], [&] and [~] apply to their operands. *)
Definition wrap (x : Z) : Z := (x + 2 ^ 31) mod 2 ^ 32 - 2 ^ 31.

(** [x | y] *)
Definition or (x y : Z) : Z := Z.lor (wrap x) (wrap y).

(** [x & y] *)
Definition and (x y : Z) : Z := Z.land (wrap x) (wrap y).

(** [~x] *)
Definition not (x : Z) : Z := Z.lnot (wrap x).

End Int32.

(** The legacy [NodeAction]. *)
Record NodeAction := {
  na_type : string;
  na_amount : Z;
  na_node : option string
}.

(** The legacy [TreeNode]. *)
Record TreeNode := {
  tn_id : string;
  tn_parentId : option string;
  tn_player : Z;
  tn_street : Z;
  tn_sequence : list Action;
  tn_actions : list NodeAction;
  tn_children : list string;
  tn_depth : Z;
  tn_path : string;
  tn_isTerminal : bool;
  tn_hasHandData : bool
}.

Definition withFlags (node : CompactTreeNode) (f : Z) : CompactTreeNode :=
  {| node_id := node_id node; node_p := node_p node; node_pl := node_pl node;
     node_s := node_s node; node_a := node_a node; node_d := node_d node;
     node_f := f |}.

(** [setTerminal] and [setHandData] assign to [node.f]; here they return the
    node with the new flags. *)
Definition setTerminal (node : CompactTreeNode) (isTerminal : bool) : CompactTreeNode :=
  if isTerminal then withFlags node (Int32.or (node_f node) 1)
  else withFlags node (Int32.and (node_f node) (Int32.not 1)).

Definition setHandData (node : CompactTreeNode) (hasHandData : bool) : CompactTreeNode :=
  if hasHandData then withFlags node (Int32.or (node_f node) 2)
  else withFlags node (Int32.and (node_f node) (Int32.not 2)).

Definition expandNode (compact : CompactTreeNode) : TreeNode :=
  {| tn_id := node_id compact;
     tn_parentId := node_p compact;
     tn_player := node_pl compact;
     tn_street := node_s compact;
     tn_sequence := [];
     tn_actions :=
       (fun a => {| na_type := act_t a;
                    na_amount := JS.opt_or (act_amt a) 0;
                    na_node := if JS.truthy (act_n a) then act_n a else None |})
         <$> node_a compact;
     tn_children :=
       (fun a => JS.get (act_n a))
         <$> List.filter (fun a => JS.truthy (act_n a)) (node_a compact);
     tn_depth := node_d compact;
     tn_path := EmptyString;
     tn_isTerminal := CompactTreeUtils.isTerminal compact;
     tn_hasHandData := CompactTreeUtils.hasHandData compact |}.

(** The action conversion shared by [compactNode] and [convertToCompact]. *)
Definition compactAction (action : NodeAction) : CompactAction :=
  {| act_t := na_type action;
     act_amt := if decide (na_amount action > 0) then Some (na_amount action) else None;
     act_n := if JS.truthy (na_node action) then na_node action else None |}.

Definition compactNode (full : TreeNode) : CompactTreeNode :=
  let compact :=
    {| node_id := tn_id full;
       node_p := tn_parentId full;
       node_pl := tn_player full;
       node_s := tn_street full;
       node_a := compactAction <$> tn_actions full;
       node_d := tn_depth full;
       node_f := 0 |} in
  let compact := setTerminal compact (tn_isTerminal full) in
  setHandData compact (tn_hasHandData full).

(** *** compact-tree-navigator.ts: convertToCompact *)

(** The legacy tree [convertToCompact] reads: [nodes] are the entries of
    [legacyTree.nodes] in the order [Object.entries] enumerates them, with
    the node shape of the legacy [TreeNode]; [lt_generatedAt] is
    [legacyTree.metadata?.generatedAt]. *)
Record LegacyTree := {
  lt_nodes : list (string * TreeNode);
  lt_root : string;
  lt_maxDepth : Z;
  lt_playerCount : Z;
  lt_generatedAt : option string
}.

(** The [meta] object [convertToCompact] builds. *)
Record TreeMetadata := {
  meta_totalNodes : Z;
  meta_terminalNodes : Z;
  meta_maxDepth : Z;
  meta_playerCount : Z;
  meta_generatedAt : string;
  meta_version : string
}.

(** The compact node [convertToCompact] builds for one entry. *)
Definition convertNode (node : TreeNode) : CompactTreeNode :=
  let f := 0 in
  let f := if tn_isTerminal node then Int32.or f 1 else f in
  let f := if tn_hasHandData node then Int32.or f 2 else f in
  {| node_id := tn_id node;
     node_p := tn_parentId node;
     node_pl := tn_player node;
     node_s := tn_street node;
     node_a := compactAction <$> tn_actions node;
     node_d := tn_depth node;
     node_f := f |}.

(** The body of the [forEach] of [convertToCompact]: the entries built so far
    and [terminalCount].  The keys of an object are distinct, so the
    assignment [compactNodes[nodeId] = compact] adds an entry at the end. *)
Definition convertEntry (acc : list (string * CompactTreeNode) * Z)
    (entry : string * TreeNode) : list (string * CompactTreeNode) * Z :=
  let '(compactNodes, terminalCount) := acc in
  let '(nodeId, node) := entry in
  (compactNodes ++ [(nodeId, convertNode node)],
   if tn_isTerminal node then terminalCount + 1 else terminalCount).

(** [convertToCompact]; [now] is [new Date().toISOString()].  The tree and
    its [meta], which [OptimizedTree] leaves out, come as a pair. *)
Definition convertToCompact (now : string) (legacyTree : LegacyTree)
    : OptimizedTree * TreeMetadata :=
  let '(compactNodes, terminalCount) := foldl convertEntry ([], 0) (lt_nodes legacyTree) in
  ({| nodes := compactNodes; root := lt_root legacyTree |},
   {| meta_totalNodes := Z.of_nat (length compactNodes);
      meta_terminalNodes := terminalCount;
      meta_maxDepth := lt_maxDepth legacyTree;
      meta_playerCount := lt_playerCount legacyTree;
      meta_generatedAt :=
        if JS.truthy (lt_generatedAt legacyTree) then JS.get (lt_generatedAt legacyTree)
        else now;
      meta_version := "2.0.0-compact" |}).

(** *** compact-tree-navigator.ts: getNodePath and getNavigationPath *)

(** [parts.join(sep)] *)
Fixpoint join (sep : string) (parts : list string) : string :=
  match parts with
  | [] => EmptyString
  | [part] => part
  | part :: rest => part +:+ sep +:+ join sep rest
  end.

(** The string [getNodePath] makes of a trail. *)
Definition pathOfBreadcrumbs (breadcrumbs : list BreadcrumbItem) : string :=
  if decide (1 < length breadcrumbs)%nat
  then join " â†’ " (bc_label <$> drop 1 breadcrumbs)
  else "Root".

Definition getNodePath (fuel : nat) (nav : CompactTreeNavigator) (nodeId : string)
    : option (string * CompactTreeNavigator) :=
  match pathCache nav !! nodeId with
  | Some cached => Some (cached, nav)
  | None =>
      '(breadcrumbs, nav) ← getBreadcrumbs fuel nav nodeId;
      let path := pathOfBreadcrumbs breadcrumbs in
      Some (path,
            {| tree := tree nav;
               nodeCache := nodeCache nav;
               pathCache := <[nodeId := path]> (pathCache nav);
               breadcrumbCache := breadcrumbCache nav |})
  end.

Record CompactNavigationPath := {
  np_current : string;
  np_breadcrumbs : option (list BreadcrumbItem);
  np_actions : option (list NavigationAction)
}.

(** [getNavigationPath]: the inner [None] is the source's [null]. *)
Definition getNavigationPath (fuel : nat) (nav : CompactTreeNavigator)
    (nodeId : string) (includeBreadcrumbs includeActions : bool)
    : option (option CompactNavigationPath * CompactTreeNavigator) :=
  match nodeCache nav !! nodeId with
  | None => Some (None, nav)
  | Some node =>
      '(breadcrumbs, nav) ←
        (if includeBreadcrumbs
         then '(breadcrumbs, nav') ← getBreadcrumbs fuel nav nodeId;
              Some (Some breadcrumbs, nav')
         else Some (None, nav));
      let actions :=
        if includeActions then Some (getAvailableActions nav nodeId) else None in
      Some (Some {| np_current := nodeId;
                    np_breadcrumbs := breadcrumbs;
                    np_actions := actions |},
            nav)
  end.

(** *** utils/poker-utils: formatBB *)

Module Number.

(** [x % 1 === 0] for a positive double [mant * 2 ^ expo]: the remainder is
    exact, so the test asks whether the value is a whole number. *)
Definition isInteger (x : Double.t) : bool :=
  bool_decide (0 <= Double.expo x)
  || bool_decide (Double.mant x mod 2 ^ (- Double.expo x) = 0).

(** The value of a double that is a whole number. *)
Definition integer (x : Double.t) : Z :=
  if decide (0 <= Double.expo x) then Double.mant x * 2 ^ Double.expo x
  else Double.mant x / 2 ^ (- Double.expo x).

End Number.

(** [formatBB] for integer amounts and blinds below 2^53 in absolute value.
    A zero amount divides to zero; a negative one divides as its absolute
    value does and prints a sign, in the template literal and in [toFixed]
    alike; a whole quotient below 1e21 prints as its digits. *)
Definition formatBB (amount bbValue : Z) : string :=
  if bool_decide (bbValue = 0) || bool_decide (bbValue <= 0) then "N/A BB"
  else if decide (amount = 0) then "0BB"
  else
    let bb := Double.div (Z.abs amount) bbValue in
    let sign := if decide (amount < 0) then "-" else EmptyString in
    if Number.isInteger bb then sign +:+ pretty (Number.integer bb) +:+ "BB"
    else (sign +:+ Double.toFixed bb 1) +:+ "BB".

(** *** The action labels of PokerTablePreview and HierarchicalMenu *)

Module Preview.

Definition formatBB (settings : SettingsData) (amount : Z) : string :=
  formatBB amount (JS.num_or (bb (blinds settings)) 0).

Definition formatActionLabel (settings : SettingsData) (actionType : string)
    (amount : Z) : string :=
  if decide (actionType = "F") then "Fold"
  else if decide (actionType = "C") then "Call"
  else if decide (actionType = "X") then "Check"
  else if decide (actionType = "R") then
    if decide (amount > 0) then "Raise " +:+ formatBB settings amount else "Raise"
  else if decide (actionType = "A") then "All-in"
  else actionType.

End Preview.

Module Menu.

(** The local [formatBB] repeats the one of poker-utils on the big blind of
    the settings. *)
Definition formatActionLabel (actionType : string) (amount : Z)
    (settings : SettingsData) : string :=
  let formatBB := fun amt => formatBB amt (bb (blinds settings)) in
  if decide (actionType = "F") then "Fold"
  else if decide (actionType = "C") then "Call"
  else if decide (actionType = "X") then "Check"
  else if decide (actionType = "R") then
    if decide (amount > 0) then formatBB amount else "Raise"
  else if decide (actionType = "A") then
    if decide (amount > 0) then "All-in " +:+ formatBB amount else "All-in"
  else actionType.

End Menu.
(** * Part II: the vocabulary of the statements *)

(** ** Game-state reconstruction *)

(** Chips the player has put in through the calls, raises and all-ins of a
    sequence. *)
Fixpoint wagered (playerIndex : Z) (actionSequence : list Action) : Z :=
  match actionSequence with
  | [] => 0
  | action :: rest =>
      (if decide (player action = playerIndex
                  /\ (type action = "C" \/ type action = "R" \/ type action = "A"))
       then amount action else 0)
      + wagered playerIndex rest
  end.

(** The seat name of a player, if the table has that seat. *)
Definition seat (playerIndex : Z) (settings : SettingsData) : option string :=
  JS.index (getPositionNames (JS.num_or (playerCount settings) 2)) playerIndex.

(** The forced bets of a seat. *)
Definition posted (playerIndex : Z) (settings : SettingsData) : Z :=
  (if decide (seat playerIndex settings = Some "SB") then sb (blinds settings) else 0)
  + (if decide (seat playerIndex settings = Some "BB") then bb (blinds settings) else 0)
  + (if decide (ante (blinds settings) > 0) then ante (blinds settings) else 0).

(** The stack a seat starts from: its entry of [stacks], or 4,000,000 when
    that entry is missing or zero. *)
Definition startingStack (playerIndex : Z) (settings : SettingsData) : Z :=
  match JS.index (stacks settings) playerIndex with
  | Some v => if decide (v = 0) then 4000000 else v
  | None => 4000000
  end.

(** The table of the spec's examples: two seats with 200 chips each, blinds 1
    and 2, no ante. *)
Definition headsUp : SettingsData :=
  {| stacks := [200; 200];
     blinds := {| sb := 1; bb := 2; ante := 0 |};
     playerCount := 2 |}.

Definition raiseCallRaise : list Action :=
  [ {| player := 0; type := "R"; amount := 6; street := 0 |};
    {| player := 1; type := "C"; amount := 6; street := 0 |};
    {| player := 0; type := "R"; amount := 20; street := 0 |} ].

(** ** Path navigation *)

(** Following the spec's words: replaying a list of types by looking up, at
    each node, its available actions and following the first one whose type
    matches. *)
Fixpoint replayByAvailableActions (nav : CompactTreeNavigator) (current : string)
    (actionTypes : list string) : option string :=
  match actionTypes with
  | [] => Some current
  | actionType :: rest =>
      match List.find (fun action => bool_decide (nav_type action = actionType))
                      (getAvailableActions nav current) with
      | None => None
      | Some action => replayByAvailableActions nav (nav_targetNode action) rest
      end
  end.

(** A three-node tree: the root folds to nowhere, calls to [n1], and has a
    second call, which is never taken, to [n2]. *)
Definition callTree : OptimizedTree :=
  {| nodes :=
       [ ("n0", {| node_id := "n0"; node_p := None; node_pl := 0; node_s := 0;
                   node_a := [ {| act_t := "F"; act_amt := None; act_n := None |};
                               {| act_t := "C"; act_amt := Some 2; act_n := Some "n1" |};
                               {| act_t := "C"; act_amt := Some 2; act_n := Some "n2" |} ];
                   node_d := 0; node_f := 0 |});
         ("n1", {| node_id := "n1"; node_p := Some "n0"; node_pl := 1; node_s := 0;
                   node_a := [ {| act_t := "X"; act_amt := None; act_n := Some "n2" |} ];
                   node_d := 1; node_f := 0 |});
         ("n2", {| node_id := "n2"; node_p := Some "n1"; node_pl := 0; node_s := 1;
                   node_a := []; node_d := 2; node_f := 1 |}) ];
     root := "n0" |}.

(** ** Validation *)

(** The ids [validateCompactTree] checks references against. *)
Definition treeIds (tree : OptimizedTree) : gset string := list_to_set (nodes tree).*1.

(** A reference that is present and does not resolve. *)
Definition dangling (nodeIds : gset string) (ref : option string) : Prop :=
  JS.truthy ref = true /\ JS.get ref ∉ nodeIds.

Definition parentError (nodeId : string) (node : CompactTreeNode) : string :=
  "Node " +:+ nodeId +:+ " references non-existent parent " +:+ JS.get (node_p node).

Definition actionError (nodeId : string) (index : nat) (action : CompactAction)
    : string :=
  "Node " +:+ nodeId +:+ " action " +:+ pretty index
  +:+ " references non-existent node " +:+ JS.get (act_n action).

(** A node that names the missing parent [zz] and whose action 1 targets the
    missing node [ghost]. *)
Definition brokenNode : CompactTreeNode :=
  {| node_id := "a"; node_p := Some "zz"; node_pl := 0; node_s := 0;
     node_a := [ {| act_t := "F"; act_amt := None; act_n := None |};
                 {| act_t := "C"; act_amt := Some 2; act_n := Some "ghost" |} ];
     node_d := 0; node_f := 0 |}.

(** A tree with all three kinds of violation: its only node is [brokenNode],
    and its root [r] is not a node. *)
Definition brokenTree : OptimizedTree :=
  {| nodes := [ ("a", brokenNode) ]; root := "r" |}.

(** A reference that is given and is not a key, empty or not. *)
Definition unresolved (nodeIds : gset string) (ref : option string) : Prop :=
  exists id, ref = Some id /\ id ∉ nodeIds.

(** A tree whose only node names the empty string as its parent and as the
    target of its action 0; the empty string is not a key. *)
Definition emptyReferenceTree : OptimizedTree :=
  {| nodes :=
       [ ("a", {| node_id := "a"; node_p := Some EmptyString; node_pl := 0;
                  node_s := 0;
                  node_a := [ {| act_t := "C"; act_amt := Some 2;
                                 act_n := Some EmptyString |} ];
                  node_d := 0; node_f := 0 |}) ];
     root := "a" |}.

(** ** Breadcrumbs *)

(** The navigators a program can hold: a fresh one, and what [getBreadcrumbs]
    and [clearCaches] turn one into.  ([getNavigationPath] and [getNodePath]
    reach [breadcrumbCache] through [getBreadcrumbs] only.) *)
Inductive navReachable (t : OptimizedTree) : CompactTreeNavigator -> Prop :=
| reach_constructor : navReachable t (constructor t)
| reach_getBreadcrumbs nav fuel nodeId breadcrumbs nav' :
    navReachable t nav ->
    getBreadcrumbs fuel nav nodeId = Some (breadcrumbs, nav') ->
    navReachable t nav'
| reach_clearCaches nav :
    navReachable t nav -> navReachable t (clearCaches nav).

(** What the cache holds was computed from the index. *)
Definition cacheSound (nav : CompactTreeNavigator) : Prop :=
  forall nodeId breadcrumbs,
    breadcrumbCache nav !! nodeId = Some breadcrumbs ->
    exists fuel, computeBreadcrumbs fuel (nodeCache nav) nodeId = Some breadcrumbs.

(** A navigator of [callTree] that has already answered two queries. *)
Definition warmNavigator : CompactTreeNavigator :=
  match getBreadcrumbs 5 (constructor callTree) "n2" with
  | Some (_, nav) =>
      match getBreadcrumbs 5 nav "n0" with
      | Some (_, nav') => nav'
      | None => nav
      end
  | None => constructor callTree
  end.

(** ** Vocabulary for the further properties *)

(** The wagers that count for a player's stack: the player's own calls,
    raises and all-ins. *)
Definition ownWager (playerIndex : Z) (action : Action) : bool :=
  bool_decide (player action = playerIndex)
  && (bool_decide (type action = "C") || bool_decide (type action = "R")
      || bool_decide (type action = "A")).

(** The chips an action moves into the pot: its amount, unless it is a fold, a
    check or not positive. *)
Definition chipsIn (action : Action) : Z :=
  if bool_decide (type action <> "F") && bool_decide (type action <> "X")
     && bool_decide (amount action > 0)
  then amount action else 0.

Definition sumZ (l : list Z) : Z := foldr Z.add 0 l.

(** A six-handed table with an ante. *)
Definition sixMax : SettingsData :=
  {| stacks := [1000; 1000; 1000; 1000; 500; 1000];
     blinds := {| sb := 5; bb := 10; ante := 1 |};
     playerCount := 6 |}.

(** The button raises to 25, the small blind folds, the big blind calls; on
    the flop the big blind checks and the button bets 30. *)
Definition sixMaxHand : list Action :=
  [ {| player := 3; type := "R"; amount := 25; street := 0 |};
    {| player := 4; type := "F"; amount := 0; street := 0 |};
    {| player := 5; type := "C"; amount := 15; street := 0 |};
    {| player := 5; type := "X"; amount := 0; street := 1 |};
    {| player := 3; type := "R"; amount := 30; street := 1 |} ].

(** The accumulator [calculatePotAndContributions] enters its loop with: the
    antes and blinds in the pot, the blinds in the total contributions and,
    on street 0, in the current-street contributions. *)
Definition potStart (settings : SettingsData) (currentStreet : Z)
    : PotAndContributions :=
  let count := playerCount settings in
  let positions := getPositionNames count in
  let sbIndex := JS.indexOf positions "SB" in
  let bbIndex := JS.indexOf positions "BB" in
  let zeros := replicate (Z.to_nat count) 0 in
  {| totalPot :=
       (if decide (ante (blinds settings) > 0)
        then ante (blinds settings) * count else 0)
       + (sb (blinds settings) + bb (blinds settings));
     playerCurrentStreetContributions :=
       if decide (currentStreet = 0)
       then JS.update (JS.update zeros sbIndex (fun _ => sb (blinds settings)))
                      bbIndex (fun _ => bb (blinds settings))
       else zeros;
     playerTotalContributions :=
       JS.update (JS.update zeros sbIndex (fun c => c + sb (blinds settings)))
                 bbIndex (fun c => c + bb (blinds settings)) |}.

(** The forced bets [getPlayerStacks] takes from the seat named [pos]. *)
Definition blindOf (sb bb ante : Z) (pos : string) : Z :=
  (if decide (pos = "SB") then sb else 0)
  + (if decide (pos = "BB") then bb else 0)
  + (if decide (ante > 0) then ante else 0).

(** The chips the actions of a sequence take from seat [seatIndex]. *)
Fixpoint paid (seatIndex : nat) (sequence : list Action) : Z :=
  match sequence with
  | [] => 0
  | action :: rest =>
      (if decide (player action = Z.of_nat seatIndex) then chipsIn action else 0)
      + paid seatIndex rest
  end.

(** The player's actions are folds, checks, calls, raises or all-ins, and
    none has a negative amount. *)
Definition plainActions (playerIndex : Z) (sequence : list Action) : Prop :=
  Forall (fun action =>
            player action = playerIndex ->
            0 <= amount action
            /\ (type action = "F" \/ type action = "X" \/ type action = "C"
                \/ type action = "R" \/ type action = "A"))
         sequence.

(** A compact action as [compactNode] writes them: an amount, if present, is
    positive, and a target, if present, is not the empty string. *)
Definition tidyAction (action : CompactAction) : Prop :=
  (forall v, act_amt action = Some v -> 0 < v) /\ act_n action <> Some EmptyString.

(** A legacy action that survives the compact form: no negative amount, and
    no empty target. *)
Definition keptAction (action : NodeAction) : Prop :=
  0 <= na_amount action /\ na_node action <> Some EmptyString.

(** A legacy node and its compact form, for the examples. *)
Definition legacyNode : TreeNode :=
  {| tn_id := "n0"; tn_parentId := None; tn_player := 0; tn_street := 0;
     tn_sequence := [];
     tn_actions := [ {| na_type := "F"; na_amount := 0; na_node := None |};
                     {| na_type := "R"; na_amount := 6; na_node := Some "n1" |} ];
     tn_children := ["n1"]; tn_depth := 0; tn_path := "Root";
     tn_isTerminal := false; tn_hasHandData := true |}.

Definition legacyLeaf : TreeNode :=
  {| tn_id := "n1"; tn_parentId := Some "n0"; tn_player := 1; tn_street := 0;
     tn_sequence := []; tn_actions := []; tn_children := []; tn_depth := 1;
     tn_path := "Raise"; tn_isTerminal := true; tn_hasHandData := false |}.

Definition legacyTree : LegacyTree :=
  {| lt_nodes := [ ("n0", legacyNode); ("n1", legacyLeaf) ];
     lt_root := "n0"; lt_maxDepth := 1; lt_playerCount := 2;
     lt_generatedAt := None |}.

(** The navigators a program can hold, through every method of the class that
    writes to it. *)
Inductive navReachableAll (t : OptimizedTree) : CompactTreeNavigator -> Prop :=
| reachAll_constructor : navReachableAll t (constructor t)
| reachAll_getBreadcrumbs nav fuel nodeId breadcrumbs nav' :
    navReachableAll t nav ->
    getBreadcrumbs fuel nav nodeId = Some (breadcrumbs, nav') ->
    navReachableAll t nav'
| reachAll_getNodePath nav fuel nodeId path nav' :
    navReachableAll t nav ->
    getNodePath fuel nav nodeId = Some (path, nav') ->
    navReachableAll t nav'
| reachAll_getNavigationPath nav fuel nodeId includeBreadcrumbs includeActions
    result nav' :
    navReachableAll t nav ->
    getNavigationPath fuel nav nodeId includeBreadcrumbs includeActions
    = Some (result, nav') ->
    navReachableAll t nav'
| reachAll_clearCaches nav :
    navReachableAll t nav -> navReachableAll t (clearCaches nav).

(** What the path cache holds is the path of a computed trail. *)
Definition pathSound (nav : CompactTreeNavigator) : Prop :=
  forall nodeId path,
    pathCache nav !! nodeId = Some path ->
    exists fuel breadcrumbs,
      computeBreadcrumbs fuel (nodeCache nav) nodeId = Some breadcrumbs
      /\ path = pathOfBreadcrumbs breadcrumbs.

(** The entries the step from [parent] to [child] adds to a trail: one, for
    the first action of the parent that targets the child's id, or none when
    the parent has no such action. *)
Definition stepEntries (parent child : CompactTreeNode) : list BreadcrumbItem :=
  match List.find (fun action => bool_decide (act_n action = Some (node_id child)))
                  (node_a parent) with
  | Some action =>
      [ {| bc_nodeId := JS.get (node_p child);
           bc_label := formatActionLabel (act_t action) (JS.opt_or (act_amt action) 0);
           bc_player := node_pl parent;
           bc_action := act_t action |} ]
  | None => []
  end.

(** The entry for the root. *)
Definition startEntry (rootNode : CompactTreeNode) : BreadcrumbItem :=
  {| bc_nodeId := node_id rootNode; bc_label := "Start";
     bc_player := node_pl rootNode; bc_action := "ROOT" |}.

(** Depths are not negative and grow from an indexed parent to its child. *)
Definition parentsShallower (cache : gmap string CompactTreeNode) : Prop :=
  forall key node parent,
    cache !! key = Some node ->
    JS.truthy (node_p node) = true ->
    cache !! JS.get (node_p node) = Some parent ->
    0 <= node_d parent < node_d node.
(** * Part III: properties *)

(** ** Game-state reconstruction *)

Lemma num_or_zero x : JS.num_or x 0 = x.
Proof. unfold JS.num_or. case_decide; lia. Qed.

Lemma stackStep_wagered playerIndex action currentStack :
  stackStep playerIndex currentStack action
  = currentStack - wagered playerIndex [action].
Proof.
  unfold stackStep; simpl. rewrite num_or_zero.
  repeat case_bool_decide; simpl; case_decide; try lia; exfalso; tauto.
Qed.

Lemma foldl_stackStep playerIndex actionSequence : forall currentStack,
  foldl (stackStep playerIndex) currentStack actionSequence
  = currentStack - wagered playerIndex actionSequence.
Proof.
  induction actionSequence as [|action rest IH]; intros currentStack.
  - simpl. lia.
  - cbn [foldl]. rewrite IH, stackStep_wagered. cbn [wagered]. lia.
Qed.

(** The loop of [calculatePlayerStackAbsolute] in closed form. *)
Lemma stack_closed_form playerIndex settings actionSequence :
  calculatePlayerStackAbsolute playerIndex settings actionSequence
  = Z.max 0 (startingStack playerIndex settings - posted playerIndex settings
             - wagered playerIndex actionSequence).
Proof.
  unfold calculatePlayerStackAbsolute, posted, startingStack, seat, JS.opt_or.
  rewrite foldl_stackStep, !num_or_zero. f_equal.
  assert (Hstart :
    match JS.index (stacks settings) playerIndex with
    | Some v => JS.num_or v 4000000
    | None => 4000000
    end
    = match JS.index (stacks settings) playerIndex with
      | Some v => if decide (v = 0) then 4000000 else v
      | None => 4000000
      end) by (destruct (JS.index _ _); reflexivity).
  rewrite Hstart. repeat case_decide; lia.
Qed.

Lemma wagered_app playerIndex seq1 seq2 :
  wagered playerIndex (seq1 ++ seq2)
  = wagered playerIndex seq1 + wagered playerIndex seq2.
Proof. induction seq1 as [|a seq1 IH]; simpl; [lia | rewrite IH; lia]. Qed.

(** A negative index, or one past the seats of a 2 to 9 handed table, has no
    seat name, hence posts no blind. *)
Lemma seat_out_of_range playerIndex settings :
  2 <= playerCount settings <= 9 ->
  playerIndex < 0 \/ playerCount settings <= playerIndex ->
  seat playerIndex settings = None.
Proof.
  intros Hcount Hout. unfold seat, JS.index, JS.num_or, getPositionNames.
  case_decide; [|reflexivity].
  apply lookup_ge_None_2.
  repeat case_decide; simpl; lia.
Qed.

Lemma index_update_eq arr i f v :
  JS.index arr i = Some v -> JS.index (JS.update arr i f) i = Some (f v).
Proof.
  unfold JS.index, JS.update. case_decide; [|done].
  intros Hv. by rewrite list_lookup_alter_eq, Hv.
Qed.

(** A raise on the current street replaces the seat's current-street
    contribution by its amount. *)
Lemma potStep_raise_replaces currentStreet acc action old :
  type action = "R" -> amount action > 0 -> street action = currentStreet ->
  player action < Z.of_nat (length (playerTotalContributions acc)) ->
  JS.index (playerCurrentStreetContributions acc) (player action) = Some old ->
  JS.index (playerCurrentStreetContributions (potStep currentStreet acc action))
           (player action)
  = Some (amount action).
Proof.
  intros Htype Hamount Hstreet Hseat Hold. unfold potStep.
  rewrite num_or_zero, Htype.
  rewrite !bool_decide_eq_true_2 by (done || lia). cbn [andb].
  rewrite decide_True, (decide_True _ _ Hstreet) by done.
  rewrite decide_False, decide_True by done. cbn.
  by rewrite (index_update_eq _ _ _ old).
Qed.

(** A call on the current street adds its amount to the seat's current-street
    contribution. *)
Lemma potStep_call_adds currentStreet acc action old :
  type action = "C" -> amount action > 0 -> street action = currentStreet ->
  player action < Z.of_nat (length (playerTotalContributions acc)) ->
  JS.index (playerCurrentStreetContributions acc) (player action) = Some old ->
  JS.index (playerCurrentStreetContributions (potStep currentStreet acc action))
           (player action)
  = Some (old + amount action).
Proof.
  intros Htype Hamount Hstreet Hseat Hold. unfold potStep.
  rewrite num_or_zero, Htype.
  rewrite !bool_decide_eq_true_2 by (done || lia). cbn [andb].
  rewrite decide_True, (decide_True _ _ Hstreet) by done.
  rewrite decide_True by done. cbn.
  by rewrite (index_update_eq _ _ _ old).
Qed.

(** C1, the claim as stated fails: on the raise 6, call 6, raise 20 sequence
    the function does not give player 1 a current-street contribution of 6. *)
Lemma C1_call_contribution_is_not_6 :
  ~ (exists r, calculatePotAndContributions headsUp 0 raiseCallRaise = Some r
               /\ JS.index (playerCurrentStreetContributions r) 0 = Some 20
               /\ JS.index (playerCurrentStreetContributions r) 1 = Some 6).
Proof.
  intros (r & Hr & _ & H1).
  vm_compute in Hr. injection Hr as <-. vm_compute in H1. discriminate.
Qed.

(** C1, amended: on that sequence player 0's current-street contribution is
    20, the second raise replacing the first, and player 1's is 8, the call of
    6 added to the big blind of 2 that the seat was seeded with. *)
Theorem C1_raise_replaces_call_adds :
  exists r, calculatePotAndContributions headsUp 0 raiseCallRaise = Some r
            /\ JS.index (playerCurrentStreetContributions r) 0 = Some 20
            /\ JS.index (playerCurrentStreetContributions r) 1 = Some 8
            /\ playerTotalContributions r = [27; 8]
            /\ totalPot r = 35.
Proof. eexists. split; [vm_compute; reflexivity|]. vm_compute. auto. Qed.

(** C2, the claim as stated fails: a player index past the last seat makes the
    call complete normally, with the default stack. *)
Lemma C2_out_of_range_returns_default :
  ~ (forall playerIndex settings actionSequence,
       playerIndex < 0 \/ playerCount settings <= playerIndex ->
       exists err,
         calculatePlayerStackAbsolute_call playerIndex settings actionSequence
         = JS.Throw err)
  /\ calculatePlayerStackAbsolute_call 2 headsUp [] = JS.Normal 4000000.
Proof.
  split; [|reflexivity].
  intros H. destruct (H 2 headsUp []) as [err Herr]; [right; simpl; lia|].
  discriminate Herr.
Qed.

(** C2, amended: for a player index outside [0, playerCount) the call never
    signals an error; it returns the starting stack less the forced bets and
    the player's wagers, clamped at 0, where the starting stack is the default
    4,000,000 whenever [stacks] has no entry at that index, and where at a
    table of 2 to 9 seats the only forced bet of such an index is the ante. *)
Theorem C2_out_of_range_is_defaulted playerIndex settings actionSequence :
  playerIndex < 0 \/ playerCount settings <= playerIndex ->
  calculatePlayerStackAbsolute_call playerIndex settings actionSequence
  = JS.Normal (Z.max 0 (startingStack playerIndex settings
                        - posted playerIndex settings
                        - wagered playerIndex actionSequence))
  /\ (JS.index (stacks settings) playerIndex = None ->
      startingStack playerIndex settings = 4000000)
  /\ (2 <= playerCount settings <= 9 ->
      posted playerIndex settings = Z.max 0 (ante (blinds settings))).
Proof.
  intros Hout. split; [|split].
  - unfold calculatePlayerStackAbsolute_call. by rewrite stack_closed_form.
  - unfold startingStack. by intros ->.
  - intros Hcount. unfold posted.
    rewrite (seat_out_of_range _ _ Hcount Hout). simpl. case_decide; lia.
Qed.

Lemma C2_out_of_range_is_defaulted_witness :
  calculatePlayerStackAbsolute_call 2 headsUp [] = JS.Normal 4000000.
Proof.
  destruct (C2_out_of_range_is_defaulted 2 headsUp []) as (Hcall & _ & _).
  - right. simpl. lia.
  - exact Hcall.
Defined.

(** C4: with stacks 200 and 200, blinds 1 and 2, no ante and no action, seat 0
    has 199 and seat 1 has 198; in general the stack is the starting stack
    less the small blind at the small-blind seat, the big blind at the
    big-blind seat, the ante when it is positive, and the amounts of the
    player's calls, raises and all-ins, clamped at 0. *)
Theorem C4_stack_reconstruction :
  calculatePlayerStackAbsolute 0 headsUp [] = 199
  /\ calculatePlayerStackAbsolute 1 headsUp [] = 198
  /\ seat 0 headsUp = Some "SB" /\ seat 1 headsUp = Some "BB"
  /\ forall playerIndex settings actionSequence,
       calculatePlayerStackAbsolute playerIndex settings actionSequence
       = Z.max 0
           (startingStack playerIndex settings
            - (if decide (seat playerIndex settings = Some "SB")
               then sb (blinds settings) else 0)
            - (if decide (seat playerIndex settings = Some "BB")
               then bb (blinds settings) else 0)
            - (if decide (ante (blinds settings) > 0)
               then ante (blinds settings) else 0)
            - wagered playerIndex actionSequence).
Proof.
  repeat split; try reflexivity.
  intros. rewrite stack_closed_form. unfold posted. f_equal. lia.
Qed.

(** C5: [isActionAllIn] holds exactly when the amount is at least the stack
    reconstructed from the sequence before the action; with 200 chips each
    and blinds 1 and 2, a wager of 10 by seat 0 on the empty sequence is not
    all-in, since 10 < 199. *)
Theorem C5_all_in_iff_amount_covers_stack :
  (forall actionAmount playerIndex settings actionSequence,
     isActionAllIn actionAmount playerIndex settings actionSequence = true
     <-> actionAmount
         >= calculatePlayerStackAbsolute playerIndex settings actionSequence)
  /\ (forall actionAmount playerIndex settings actionSequence,
        isActionAllIn actionAmount playerIndex settings actionSequence = true
        <-> actionAmount >= 0
            /\ actionAmount >= startingStack playerIndex settings
                                - posted playerIndex settings
                                - wagered playerIndex actionSequence)
  /\ isActionAllIn 10 0 headsUp [] = false
  /\ calculatePlayerStackAbsolute 0 headsUp [] = 199.
Proof.
  split; [|split; [|split; reflexivity]].
  - intros. unfold isActionAllIn. by rewrite bool_decide_eq_true.
  - intros. unfold isActionAllIn.
    rewrite bool_decide_eq_true, stack_closed_form. lia.
Qed.

(** ** Action labels *)

Lemma round_half_even_bound num den :
  0 < den ->
  - den <= 2 * (Double.round_half_even num den * den - num) <= den.
Proof.
  intros Hden. unfold Double.round_half_even.
  pose proof (Z.div_mod num den ltac:(lia)) as Hdiv.
  pose proof (Z.mod_pos_bound num den Hden) as Hmod.
  repeat case_decide; try destruct (Z.even _); nia.
Qed.

(** An exact quotient is not rounded. *)
Lemma round_half_even_exact q den :
  0 < den -> Double.round_half_even (q * den) den = q.
Proof.
  intros Hden. unfold Double.round_half_even.
  rewrite Z.div_mul, Z.mod_mul by lia.
  case_decide; [done|lia].
Qed.

Lemma nearest_bounds x digits :
  let den := 2 ^ Z.max 0 (- Double.expo x) in
  let num := Double.mant x * 10 ^ Z.of_nat digits * 2 ^ Z.max 0 (Double.expo x) in
  2 * den * Double.nearest x digits <= 2 * num + den
  < 2 * den * Double.nearest x digits + 2 * den.
Proof.
  intros den num. unfold Double.nearest. fold num. fold den.
  assert (0 < den) as Hden by (apply Z.pow_pos_nonneg; lia).
  pose proof (Z.div_mod (2 * num + den) (2 * den) ltac:(lia)) as Hdiv.
  pose proof (Z.mod_pos_bound (2 * num + den) (2 * den) ltac:(lia)) as Hmod.
  lia.
Qed.

(** Dividing an amount below 2^53 by [b] leaves at least [log2 b] binary
    places after the point. *)
Lemma div_expo a b :
  0 < a < 2 ^ 53 -> 0 < b ->
  Double.expo (Double.div a b) <= - Z.log2 b.
Proof.
  intros Ha Hb. unfold Double.div. cbn [Double.expo].
  assert (Z.log2 a <= 52) by (apply Z.lt_succ_r, Z.log2_lt_pow2; lia).
  case_decide; lia.
Qed.

Lemma div_mant a b :
  Double.mant (Double.div a b)
  = Double.round_half_even
      (a * 2 ^ Z.max 0 (- Double.expo (Double.div a b)))
      (b * 2 ^ Z.max 0 (Double.expo (Double.div a b))).
Proof. reflexivity. Qed.

(** For [2 <= b <= a < 2^53] the quotient is a normal number: before rounding
    the scaled quotient lies in [[2^52, 2^53)], and the mantissa in
    [[2^52, 2^53]]. *)
Lemma div_normalized a b :
  2 <= b <= a -> a < 2 ^ 53 ->
  2 ^ 52 <= Double.mant (Double.div a b) <= 2 ^ 53.
Proof.
  intros Hb Ha.
  pose proof (Z.log2_spec a ltac:(lia)) as Hla.
  pose proof (Z.log2_spec b ltac:(lia)) as Hlb.
  assert (1 <= Z.log2 b) as Hlb1 by (apply (Z.log2_le_mono 2 b); lia).
  assert (Z.log2 b <= Z.log2 a) as Hl by (apply Z.log2_le_mono; lia).
  assert (Z.log2 a <= 52) as Hla52 by (apply Z.lt_succ_r, Z.log2_lt_pow2; lia).
  rewrite div_mant. unfold Double.div. cbn [Double.expo].
  set (l := Z.log2 a - Z.log2 b) in *.
  rewrite (Z.max_l 0 (- l)), (Z.max_r 0 l) by lia.
  change (2 ^ 0) with 1. rewrite Z.mul_1_r.
  assert (2 ^ Z.log2 a = 2 ^ Z.log2 b * 2 ^ l) as Hsplit.
  { rewrite <- Z.pow_add_r by lia. f_equal. lia. }
  assert (2 ^ Z.succ (Z.log2 a) = 2 * 2 ^ Z.log2 a) as Hsa by (apply Z.pow_succ_r; lia).
  assert (2 ^ Z.succ (Z.log2 b) = 2 * 2 ^ Z.log2 b) as Hsb by (apply Z.pow_succ_r; lia).
  assert (0 < 2 ^ l) as Hpl by (apply Z.pow_pos_nonneg; lia).
  assert (0 < 2 ^ Z.log2 b) as Hplb by (apply Z.pow_pos_nonneg; lia).
  set (lg := if decide (b * 2 ^ l <= a) then l else l - 1).
  assert (0 <= lg <= 51 /\ b * 2 ^ lg <= a < b * (2 * 2 ^ lg)) as [Hlg Hq].
  { unfold lg. case_decide as Hcmp.
    - split; [lia|]. nia.
    - assert (1 <= l) as Hl1.
      { destruct (decide (l = 0)) as [Hz|]; [|lia].
        rewrite Hz in Hcmp. change (2 ^ 0) with 1 in Hcmp. lia. }
      assert (2 ^ l = 2 * 2 ^ (l - 1)) as Hhalf.
      { rewrite <- Z.pow_succ_r by lia. f_equal. lia. }
      split; [lia|]. nia. }
  clearbody lg.
  rewrite (Z.max_l 0 (lg - 52)), (Z.max_r 0 (- (lg - 52))) by lia.
  change (2 ^ 0) with 1. rewrite Z.mul_1_r.
  assert (2 ^ 52 = 2 ^ lg * 2 ^ (- (lg - 52))) as H52.
  { rewrite <- Z.pow_add_r by lia. f_equal. lia. }
  assert (0 < 2 ^ lg) by (apply Z.pow_pos_nonneg; lia).
  assert (0 < 2 ^ (- (lg - 52))) by (apply Z.pow_pos_nonneg; lia).
  pose proof (round_half_even_bound (a * 2 ^ (- (lg - 52))) b ltac:(lia)) as Hm.
  change (2 ^ 53) with (2 * 2 ^ 52). rewrite H52.
  set (D := 2 ^ (- (lg - 52))) in *. set (G := 2 ^ lg) in *.
  set (m := Double.round_half_even (a * D) b) in *.
  assert (b * (G * D) <= a * D < b * (2 * (G * D))) as HqD by nia.
  split.
  - assert (2 * (b * (G * D)) - b <= 2 * (m * b)) as H1 by lia.
    assert (G * D - 1 < m) by nia. lia.
  - assert (2 * (m * b) <= 2 * (b * (2 * (G * D))) + b) as H1 by lia.
    assert (m < 2 * (G * D) + 1) by nia. lia.
Qed.

(** The millions, to one decimal: the printed tenths are within half a tenth
    of a million of the amount. *)
Lemma nearest_millions a :
  1000000 <= a < 2 ^ 53 ->
  - 50000 <= 100000 * Double.nearest (Double.div a 1000000) 1 - a <= 50000.
Proof.
  intros Ha.
  pose proof (div_expo a 1000000 ltac:(lia) ltac:(lia)) as He.
  change (Z.log2 1000000) with 19 in He.
  pose proof (nearest_bounds (Double.div a 1000000) 1) as Hn. cbv zeta in Hn.
  rewrite div_mant in Hn.
  set (e := Double.expo (Double.div a 1000000)) in *.
  set (n := Double.nearest (Double.div a 1000000) 1) in *.
  rewrite (Z.max_l 0 e), (Z.max_r 0 (- e)) in Hn by lia.
  change (2 ^ 0) with 1 in Hn. change (10 ^ Z.of_nat 1) with 10 in Hn.
  assert (2 ^ 19 <= 2 ^ (- e)) as HD by (apply Z.pow_le_mono_r; lia).
  change (2 ^ 19) with 524288 in HD.
  pose proof (round_half_even_bound (a * 2 ^ (- e)) (1000000 * 1) ltac:(lia)) as Hm.
  set (D := 2 ^ (- e)) in *.
  set (m := Double.round_half_even (a * D) (1000000 * 1)) in *.
  nia.
Qed.

(** The thousands, to no decimal: the nearest thousand, a half going up. *)
Lemma nearest_thousands a :
  1000 <= a < 2 ^ 53 ->
  Double.nearest (Double.div a 1000) 0 = (a + 500) / 1000.
Proof.
  intros Ha.
  pose proof (div_expo a 1000 ltac:(lia) ltac:(lia)) as He.
  change (Z.log2 1000) with 9 in He.
  pose proof (nearest_bounds (Double.div a 1000) 0) as Hn. cbv zeta in Hn.
  rewrite div_mant in Hn.
  set (e := Double.expo (Double.div a 1000)) in *.
  set (n := Double.nearest (Double.div a 1000) 0) in *.
  rewrite (Z.max_l 0 e), (Z.max_r 0 (- e)) in Hn by lia.
  change (2 ^ 0) with 1 in Hn. change (10 ^ Z.of_nat 0) with 1 in Hn.
  assert (2 ^ (- e) = 2 * 2 ^ (- e - 1)) as Heven.
  { rewrite <- Z.pow_succ_r by lia. f_equal. lia. }
  assert (2 ^ 8 <= 2 ^ (- e - 1)) as HD by (apply Z.pow_le_mono_r; lia).
  change (2 ^ 8) with 256 in HD.
  set (D' := 2 ^ (- e - 1)) in *. rewrite Heven in Hn. clear Heven.
  pose proof (Z.div_mod a 1000 ltac:(lia)) as Hdiv.
  pose proof (Z.mod_pos_bound a 1000 ltac:(lia)) as Hmod.
  apply Z.div_unique with (a + 500 - 1000 * n); [|lia].
  left.
  destruct (decide (a mod 1000 = 500)) as [Htie|Hnotie].
  - (* a half: the quotient is a binary fraction, kept exactly *)
    replace (a * (2 * D')) with ((2 * (a / 1000) + 1) * D' * (1000 * 1)) in Hn by lia.
    rewrite round_half_even_exact in Hn by lia. nia.
  - pose proof (round_half_even_bound (a * (2 * D')) (1000 * 1) ltac:(lia)) as Hm.
    set (m := Double.round_half_even (a * (2 * D')) (1000 * 1)) in *.
    assert (- 500 <= 1000 * n - a <= 500) by nia.
    lia.
Qed.

Lemma pad_digit d : 0 <= d < 10 -> Double.pad_zeros 1 (pretty d) = pretty d.
Proof.
  intros Hd.
  assert (d = 0 \/ d = 1 \/ d = 2 \/ d = 3 \/ d = 4 \/ d = 5 \/ d = 6 \/ d = 7
          \/ d = 8 \/ d = 9) as Hcases by lia.
  repeat destruct Hcases as [->|Hcases]; try subst d; reflexivity.
Qed.

(** What [formatAmount] prints: below 1,000 the integer itself; below
    1,000,000 the nearest thousand and "K"; from there on the nearest tenth of
    a million, with one decimal, and "M". *)
Lemma formatAmount_ranges amount :
  (amount < 1000 -> formatAmount amount = pretty amount)
  /\ (1000 <= amount < 1000000 ->
      formatAmount amount = pretty ((amount + 500) / 1000) +:+ "K")
  /\ (1000000 <= amount < 2 ^ 53 ->
      exists tenths,
        formatAmount amount
        = (pretty (tenths / 10) +:+ "." +:+ pretty (tenths mod 10)) +:+ "M"
        /\ - 50000 <= 100000 * tenths - amount <= 50000).
Proof.
  unfold formatAmount. split; [|split]; intros Hrange.
  - by rewrite !decide_False by lia.
  - rewrite decide_False, decide_True by lia.
    unfold Double.toFixed. by rewrite nearest_thousands by lia.
  - rewrite decide_True by lia.
    exists (Double.nearest (Double.div amount 1000000) 1).
    split; [|by apply nearest_millions].
    unfold Double.toFixed. change (10 ^ Z.of_nat 1) with 10.
    rewrite pad_digit; [done|]. by apply Z.mod_pos_bound.
Qed.

Example formatAmount_samples :
  formatAmount <$> [999; 1000; 1500; 20000; 1500000; 1150000; 123456789]
  = ["999"; "1K"; "2K"; "20K"; "1.5M"; "1.1M"; "123.5M"].
Proof. vm_compute. reflexivity. Qed.

(** The labels of the four types the switch knows. *)
Lemma formatActionLabel_known amount :
  formatActionLabel "F" amount = "Fold"
  /\ formatActionLabel "C" amount = "Call"
  /\ formatActionLabel "X" amount = "Check"
  /\ formatActionLabel "R" amount
     = if decide (amount > 0) then "Raise " +:+ formatAmount amount else "Raise".
Proof. repeat split. Qed.

(** Every other type is its own label. *)
Lemma formatActionLabel_default type amount :
  type <> "F" -> type <> "C" -> type <> "X" -> type <> "R" ->
  formatActionLabel type amount = type.
Proof. intros. unfold formatActionLabel. by rewrite !decide_False. Qed.

(** C3, at the all-in type: [formatActionLabel] has no case for "A" and returns
    the type letter, not "All-in". *)
Theorem C3_all_in_label_is_type_letter amount :
  formatActionLabel "A" amount = "A"
  /\ formatActionLabel "A" amount <> "All-in".
Proof. split; [reflexivity|discriminate]. Qed.

(** ** Path navigation *)

(** C10: on the empty list of action types [navigateByPath] returns the start
    id, whether or not the index has it; a start id missing from the index
    yields [null] as soon as one action type is to be consumed. *)
Theorem C10_empty_path_returns_start :
  (forall nav startNodeId, navigateByPath nav startNodeId [] = Some startNodeId)
  /\ (forall nav startNodeId actionType rest,
        nodeCache nav !! startNodeId = None ->
        navigateByPath nav startNodeId (actionType :: rest) = None).
Proof.
  split; [reflexivity|].
  intros nav startNodeId actionType rest Hmiss. simpl. by rewrite Hmiss.
Qed.

Lemma C10_empty_path_returns_start_witness :
  navigateByPath (constructor {| nodes := []; root := "r" |}) "ghost" [] = Some "ghost"
  /\ navigateByPath (constructor {| nodes := []; root := "r" |}) "ghost" ["C"] = None.
Proof.
  split.
  - apply (proj1 C10_empty_path_returns_start).
  - apply (proj2 C10_empty_path_returns_start). reflexivity.
Defined.

Section RoundTrip.

Variable toNav : CompactAction -> NavigationAction.
Hypothesis toNav_type : forall action, nav_type (toNav action) = act_t action.

(** The first action of a given type among those with a target is the image of
    the first action that has both the type and a target. *)
Lemma find_available actionType (actions : list CompactAction) :
  List.find (fun action => bool_decide (nav_type action = actionType))
            (toNav <$> List.filter (fun action => JS.truthy (act_n action)) actions)
  = toNav <$> List.find (fun a => bool_decide (act_t a = actionType)
                                  && JS.truthy (act_n a)) actions.
Proof.
  induction actions as [|action actions IH]; [reflexivity|].
  simpl. destruct (JS.truthy (act_n action)) eqn:Htarget; simpl.
  - rewrite toNav_type.
    destruct (bool_decide (act_t action = actionType)); simpl; [reflexivity|apply IH].
  - rewrite andb_false_r. apply IH.
Qed.

End RoundTrip.

Lemma find_some_holds {A} (P : A -> bool) (l : list A) (x : A) :
  List.find P l = Some x -> P x = true.
Proof. intros H. by destruct (find_some _ _ H). Qed.

(** The two walks agree at every start and on every list of types, failures
    included. *)
Lemma replay_navigateByPath nav actionTypes : forall startNodeId,
  replayByAvailableActions nav startNodeId actionTypes
  = navigateByPath nav startNodeId actionTypes.
Proof.
  induction actionTypes as [|actionType rest IH]; intros startNodeId; [reflexivity|].
  simpl. unfold getAvailableActions.
  destruct (nodeCache nav !! startNodeId) as [node|]; [|reflexivity].
  rewrite find_available by reflexivity.
  destruct (List.find _ (node_a node)) as [action|] eqn:Hfind; [|reflexivity].
  simpl. apply find_some_holds in Hfind.
  apply andb_prop in Hfind as [_ ->]. simpl. apply IH.
Qed.

(** C6: whenever [navigateByPath] from the root reaches a node along a list of
    action types, replaying the list through the available actions of each
    node, first match first, reaches that node. *)
Theorem C6_navigate_replay_round_trip tree actionTypes nodeId :
  navigateByPath (constructor tree) (root tree) actionTypes = Some nodeId ->
  replayByAvailableActions (constructor tree) (root tree) actionTypes = Some nodeId.
Proof. intros Hnav. by rewrite replay_navigateByPath. Qed.

Lemma C6_navigate_replay_round_trip_witness :
  replayByAvailableActions (constructor callTree) (root callTree) ["C"; "X"] = Some "n2".
Proof. apply C6_navigate_replay_round_trip. vm_compute. reflexivity. Defined.

(** ** Validation *)

Section Validation.

Variable nodeIds : gset string.

Lemma dangling_test ref :
  JS.truthy ref && bool_decide (JS.get ref ∉ nodeIds) = true <-> dangling nodeIds ref.
Proof. unfold dangling. rewrite andb_true_iff, bool_decide_eq_true. tauto. Qed.

Lemma checkAction_cases nodeId errs action index :
  (dangling nodeIds (act_n action)
   /\ checkAction nodeIds nodeId errs action index
      = errs ++ [actionError nodeId index action])
  \/ (~ dangling nodeIds (act_n action)
      /\ checkAction nodeIds nodeId errs action index = errs).
Proof.
  unfold checkAction.
  destruct (JS.truthy _ && bool_decide _) eqn:Htest.
  - left. by apply dangling_test in Htest.
  - right. split; [|reflexivity].
    intros Hd. apply dangling_test in Hd. congruence.
Qed.

(** The action loop only appends. *)
Lemma forEach_checkAction_extends nodeId actions : forall index errs,
  exists more,
    forEachIndexed (checkAction nodeIds nodeId) actions index errs = errs ++ more.
Proof.
  induction actions as [|action actions IH]; intros index errs; simpl.
  - exists []. by rewrite app_nil_r.
  - destruct (IH (S index) (checkAction nodeIds nodeId errs action index))
      as [more ->].
    destruct (checkAction_cases nodeId errs action index) as [[_ ->]|[_ ->]].
    + eexists. by rewrite <- app_assoc.
    + by eexists.
Qed.

(** Every dangling target is reported under its own index. *)
Lemma forEach_checkAction_reports nodeId actions : forall index errs k action,
  actions !! k = Some action ->
  dangling nodeIds (act_n action) ->
  actionError nodeId (index + k) action
  ∈ forEachIndexed (checkAction nodeIds nodeId) actions index errs.
Proof.
  induction actions as [|first actions IH]; intros index errs k action Hk Hd;
    [done|].
  destruct k as [|k]; simpl in *.
  - injection Hk as ->.
    destruct (forEach_checkAction_extends nodeId actions (S index)
                (checkAction nodeIds nodeId errs action index)) as [more ->].
    destruct (checkAction_cases nodeId errs action index) as [[_ ->]|[Hn _]];
      [|done].
    rewrite Nat.add_0_r, !elem_of_app, list_elem_of_singleton. auto.
  - replace (index + S k)%nat with (S index + k)%nat by lia. by apply IH.
Qed.

(** With no dangling target the action loop appends nothing. *)
Lemma forEach_checkAction_clean nodeId actions : forall index errs,
  (forall action, action ∈ actions -> ~ dangling nodeIds (act_n action)) ->
  forEachIndexed (checkAction nodeIds nodeId) actions index errs = errs.
Proof.
  induction actions as [|first actions IH]; intros index errs Hclean; [done|].
  simpl.
  destruct (checkAction_cases nodeId errs first index) as [[Hd _]|[_ ->]].
  - exfalso. eapply Hclean; [|exact Hd]. by left.
  - apply IH. intros action Hin. apply Hclean. by right.
Qed.

Lemma checkNode_extends errs entry :
  exists more, checkNode nodeIds errs entry = errs ++ more.
Proof.
  destruct entry as [nodeId node]. unfold checkNode.
  destruct (forEach_checkAction_extends nodeId (node_a node) 0
    (if JS.truthy (node_p node) && bool_decide (JS.get (node_p node) ∉ nodeIds)
     then errs ++ ["Node " +:+ nodeId +:+ " references non-existent parent "
                   +:+ JS.get (node_p node)]
     else errs)) as [more ->].
  destruct (JS.truthy _ && bool_decide _).
  - eexists. by rewrite <- app_assoc.
  - by eexists.
Qed.

Lemma foldl_checkNode_extends entries : forall errs,
  exists more, foldl (checkNode nodeIds) errs entries = errs ++ more.
Proof.
  induction entries as [|entry entries IH]; intros errs; cbn [foldl].
  - exists []. by rewrite app_nil_r.
  - destruct (IH (checkNode nodeIds errs entry)) as [more ->].
    destruct (checkNode_extends errs entry) as [more' ->].
    eexists. by rewrite <- app_assoc.
Qed.

Lemma checkNode_reports_parent errs nodeId node :
  dangling nodeIds (node_p node) ->
  parentError nodeId node ∈ checkNode nodeIds errs (nodeId, node).
Proof.
  intros Hd. unfold checkNode.
  apply dangling_test in Hd. rewrite Hd.
  destruct (forEach_checkAction_extends nodeId (node_a node) 0
    (errs ++ ["Node " +:+ nodeId +:+ " references non-existent parent "
              +:+ JS.get (node_p node)])) as [more ->].
  unfold parentError. rewrite !elem_of_app, list_elem_of_singleton. auto.
Qed.

Lemma checkNode_reports_action errs nodeId node index action :
  node_a node !! index = Some action ->
  dangling nodeIds (act_n action) ->
  actionError nodeId index action ∈ checkNode nodeIds errs (nodeId, node).
Proof.
  intros Hindex Hd. unfold checkNode.
  by apply (forEach_checkAction_reports nodeId (node_a node) 0 _ index action).
Qed.

(** What one node reports, every later node keeps. *)
Lemma foldl_checkNode_reports entries : forall errs entry msg,
  entry ∈ entries ->
  (forall errs', msg ∈ checkNode nodeIds errs' entry) ->
  msg ∈ foldl (checkNode nodeIds) errs entries.
Proof.
  induction entries as [|first entries IH]; intros errs entry msg Hin Hmsg;
    [by apply elem_of_nil in Hin|].
  cbn [foldl]. apply elem_of_cons in Hin as [->|Hin].
  - destruct (foldl_checkNode_extends entries (checkNode nodeIds errs first))
      as [more ->].
    apply elem_of_app. left. apply Hmsg.
  - by apply IH with entry.
Qed.

Lemma foldl_checkNode_clean entries : forall errs,
  (forall nodeId node, (nodeId, node) ∈ entries ->
     ~ dangling nodeIds (node_p node)
     /\ forall action, action ∈ node_a node -> ~ dangling nodeIds (act_n action)) ->
  foldl (checkNode nodeIds) errs entries = errs.
Proof.
  induction entries as [|[nodeId node] entries IH]; intros errs Hclean; [done|].
  cbn [foldl].
  destruct (Hclean nodeId node) as [Hparent Hactions]; [by left|].
  assert (checkNode nodeIds errs (nodeId, node) = errs) as ->.
  { unfold checkNode.
    destruct (JS.truthy _ && bool_decide _) eqn:Htest.
    - by apply dangling_test in Htest.
    - by apply forEach_checkAction_clean. }
  apply IH. intros nodeId' node' Hin. apply (Hclean nodeId' node'). by right.
Qed.

End Validation.

Lemma validate_errors tree :
  errors (validateCompactTree tree)
  = foldl (checkNode (treeIds tree))
      (if bool_decide (root tree ∉ treeIds tree)
       then ["Root node " +:+ root tree +:+ " not found"] else [])
      (nodes tree).
Proof. reflexivity. Qed.

Lemma validate_isValid tree :
  isValid (validateCompactTree tree) = true <-> errors (validateCompactTree tree) = [].
Proof.
  unfold validateCompactTree. cbn [isValid errors].
  rewrite bool_decide_eq_true. apply length_zero_iff_nil.
Qed.

Lemma reported_is_invalid tree msg :
  msg ∈ errors (validateCompactTree tree) ->
  isValid (validateCompactTree tree) = false.
Proof.
  intros Hin. apply not_true_is_false. rewrite validate_isValid.
  intros Hnil. rewrite Hnil in Hin. by apply elem_of_nil in Hin.
Qed.

Lemma missing_root_reported tree :
  root tree ∉ treeIds tree ->
  "Root node " +:+ root tree +:+ " not found" ∈ errors (validateCompactTree tree).
Proof.
  intros Hroot. rewrite validate_errors, bool_decide_eq_true_2 by done.
  destruct (foldl_checkNode_extends (treeIds tree) (nodes tree)
              ["Root node " +:+ root tree +:+ " not found"]) as [more ->].
  apply elem_of_app. left. by left.
Qed.

(** C8, the claim as stated fails: not every parent or target that is not a
    key is reported.  In [emptyReferenceTree] the parent of the node and the
    target of its action are the empty string, which is not a key; the tests
    [node.p &&] and [action.n &&] skip both, and the tree is valid with no
    error. *)
Lemma C8_empty_reference_is_not_reported :
  ~ (forall tree nodeId node,
       (nodeId, node) ∈ nodes tree ->
       unresolved (treeIds tree) (node_p node)
       \/ (exists action, action ∈ node_a node
                           /\ unresolved (treeIds tree) (act_n action)) ->
       isValid (validateCompactTree tree) = false)
  /\ validateCompactTree emptyReferenceTree = {| isValid := true; errors := [] |}.
Proof.
  assert (validateCompactTree emptyReferenceTree
          = {| isValid := true; errors := [] |}) as Hrun
    by (vm_compute; reflexivity).
  split; [|exact Hrun].
  intros Hclaim.
  assert (isValid (validateCompactTree emptyReferenceTree) = false) as Hinvalid.
  { eapply Hclaim; [by left|]. left. exists EmptyString. split; [done|].
    unfold treeIds. cbn. intros Hin. apply elem_of_union in Hin as [Hin|Hin].
    - apply elem_of_singleton in Hin. discriminate Hin.
    - by apply not_elem_of_empty in Hin. }
  rewrite Hrun in Hinvalid. discriminate Hinvalid.
Qed.

(** C8, amended: validation reports every violation it tests for: a root that
    is not a key gives an error naming the root; every node whose parent is
    present, not the empty string and not a key gives an error naming the
    node; every action whose target is present, not the empty string and not
    a key gives an error with the node and the index of the action; each of
    them makes the tree invalid, and a tree with none of them is valid with
    no error. *)
Theorem C8_validation_accumulates tree :
  (root tree ∉ treeIds tree ->
     isValid (validateCompactTree tree) = false
     /\ "Root node " +:+ root tree +:+ " not found"
        ∈ errors (validateCompactTree tree))
  /\ (forall nodeId node,
        (nodeId, node) ∈ nodes tree ->
        dangling (treeIds tree) (node_p node) ->
        isValid (validateCompactTree tree) = false
        /\ "Node " +:+ nodeId +:+ " references non-existent parent "
           +:+ JS.get (node_p node)
           ∈ errors (validateCompactTree tree))
  /\ (forall nodeId node index action,
        (nodeId, node) ∈ nodes tree ->
        node_a node !! index = Some action ->
        dangling (treeIds tree) (act_n action) ->
        isValid (validateCompactTree tree) = false
        /\ "Node " +:+ nodeId +:+ " action " +:+ pretty index
           +:+ " references non-existent node " +:+ JS.get (act_n action)
           ∈ errors (validateCompactTree tree))
  /\ (root tree ∈ treeIds tree ->
      (forall nodeId node, (nodeId, node) ∈ nodes tree ->
         ~ dangling (treeIds tree) (node_p node)
         /\ forall action, action ∈ node_a node ->
              ~ dangling (treeIds tree) (act_n action)) ->
      isValid (validateCompactTree tree) = true
      /\ errors (validateCompactTree tree) = []).
Proof.
  split; [|split; [|split]].
  - intros Hroot. pose proof (missing_root_reported tree Hroot) as Hin.
    split; [by eapply reported_is_invalid | done].
  - intros nodeId node Hentry Hd.
    assert (parentError nodeId node ∈ errors (validateCompactTree tree)) as Hin.
    { rewrite validate_errors.
      apply foldl_checkNode_reports with (nodeId, node); [done|].
      intros errs'. by apply checkNode_reports_parent. }
    split; [by eapply reported_is_invalid | done].
  - intros nodeId node index action Hentry Hindex Hd.
    assert (actionError nodeId index action ∈ errors (validateCompactTree tree))
      as Hin.
    { rewrite validate_errors.
      apply foldl_checkNode_reports with (nodeId, node); [done|].
      intros errs'. by apply checkNode_reports_action. }
    split; [by eapply reported_is_invalid | done].
  - intros Hroot Hclean.
    assert (errors (validateCompactTree tree) = []) as Hnil.
    { rewrite validate_errors, bool_decide_eq_false_2 by (intros Hn; by apply Hn).
      by apply foldl_checkNode_clean. }
    split; [by apply validate_isValid | done].
Qed.

Lemma not_elem_of_by_test (x : string) (ids : gset string) :
  bool_decide (x ∈ ids) = false -> x ∉ ids.
Proof. intros Hb Hin. by rewrite (bool_decide_eq_true_2 _ Hin) in Hb. Qed.

Lemma elem_of_by_test (x : string) (ids : gset string) :
  bool_decide (x ∈ ids) = true -> x ∈ ids.
Proof. intros Hb. by apply bool_decide_eq_true in Hb. Qed.

Lemma resolved_by_test (ids : gset string) ref :
  (JS.truthy ref = true -> bool_decide (JS.get ref ∈ ids) = true) ->
  ~ dangling ids ref.
Proof. intros Hb [Ht Hd]. apply Hd, elem_of_by_test. by apply Hb. Qed.

Lemma C8_validation_accumulates_witness :
  (isValid (validateCompactTree brokenTree) = false
   /\ "Root node r not found" ∈ errors (validateCompactTree brokenTree))
  /\ (isValid (validateCompactTree brokenTree) = false
      /\ "Node a references non-existent parent zz"
         ∈ errors (validateCompactTree brokenTree))
  /\ (isValid (validateCompactTree brokenTree) = false
      /\ "Node a action 1 references non-existent node ghost"
         ∈ errors (validateCompactTree brokenTree))
  /\ (isValid (validateCompactTree callTree) = true
      /\ errors (validateCompactTree callTree) = []).
Proof.
  destruct (C8_validation_accumulates brokenTree) as (Hroot & Hparent & Haction & _).
  destruct (C8_validation_accumulates callTree) as (_ & _ & _ & Hclean).
  split; [|split; [|split]].
  - apply Hroot. apply not_elem_of_by_test. vm_compute. reflexivity.
  - apply (Hparent "a" brokenNode).
    + left.
    + split; [reflexivity|]. apply not_elem_of_by_test. vm_compute. reflexivity.
  - apply (Haction "a" brokenNode 1%nat
             {| act_t := "C"; act_amt := Some 2; act_n := Some "ghost" |}).
    + left.
    + reflexivity.
    + split; [reflexivity|]. apply not_elem_of_by_test. vm_compute. reflexivity.
  - apply Hclean.
    + apply elem_of_by_test. vm_compute. reflexivity.
    + intros nodeId node Hin.
      unfold callTree in Hin. cbn [nodes] in Hin.
      repeat (apply elem_of_cons in Hin as [Hin|Hin]);
        [..|by apply elem_of_nil in Hin];
        injection Hin as -> ->; cbn [node_p node_a];
        (split; [apply resolved_by_test|]).
      all: try (intros _; vm_compute; reflexivity).
      all: try (intros Ht; discriminate Ht).
      all: intros action Hact;
        repeat (apply elem_of_cons in Hact as [->|Hact]);
        try (by apply elem_of_nil in Hact);
        apply resolved_by_test; cbn [act_n];
        first [intros Ht; discriminate Ht | intros _; vm_compute; reflexivity].
Defined.

(** ** Breadcrumbs *)

Lemma foldl_insert_lookup (entries : list (string * CompactTreeNode)) :
  forall (cache : gmap string CompactTreeNode) key,
    is_Some (foldl (fun cache entry => <[entry.1 := entry.2]> cache) cache entries
             !! key)
    <-> is_Some (cache !! key) \/ key ∈ entries.*1.
Proof.
  induction entries as [|[nodeId node] entries IH]; intros cache key; cbn [foldl].
  - rewrite fmap_nil, elem_of_nil. tauto.
  - rewrite IH, fmap_cons, elem_of_cons. cbn [fst snd].
    destruct (decide (nodeId = key)) as [->|Hne].
    + rewrite lookup_insert_eq. split; [intros _|intros _; left; by eexists].
      right. by left.
    + rewrite lookup_insert_ne by done. split; [tauto|].
      intros [H|[H|H]]; [tauto|congruence|tauto].
Qed.

(** The index has exactly the keys of the tree. *)
Lemma buildCache_keys tree key :
  is_Some (buildCache tree !! key) <-> key ∈ treeIds tree.
Proof.
  unfold buildCache, treeIds. rewrite foldl_insert_lookup, lookup_empty.
  rewrite elem_of_list_to_set. split; [intros [[? H]|H]; [done|done] | tauto].
Qed.

Lemma valid_root_indexed tree :
  isValid (validateCompactTree tree) = true ->
  is_Some (buildCache tree !! root tree).
Proof.
  intros Hvalid. apply buildCache_keys.
  destruct (decide (root tree ∈ treeIds tree)) as [|Hout]; [done|].
  apply missing_root_reported, reported_is_invalid in Hout. congruence.
Qed.

(** At a node without parent the loop does not run and the trail is the one
    root entry. *)
Lemma computeBreadcrumbs_parentless fuel cache nodeId node :
  cache !! nodeId = Some node ->
  JS.truthy (node_p node) = false ->
  computeBreadcrumbs fuel cache nodeId
  = Some [ {| bc_nodeId := node_id node; bc_label := "Start";
              bc_player := node_pl node; bc_action := "ROOT" |} ].
Proof.
  intros Hnode Hparent. unfold computeBreadcrumbs. rewrite Hnode.
  destruct fuel; simpl; rewrite Hparent; simpl; by rewrite Hparent.
Qed.

(** At an id that is not indexed there is no node to start from. *)
Lemma computeBreadcrumbs_absent fuel cache nodeId :
  cache !! nodeId = None ->
  computeBreadcrumbs fuel cache nodeId = Some [].
Proof.
  intros Hnode. unfold computeBreadcrumbs. rewrite Hnode. by destruct fuel.
Qed.

Lemma navReachable_inv t nav :
  navReachable t nav -> nodeCache nav = buildCache t /\ cacheSound nav.
Proof.
  induction 1 as [|nav fuel nodeId breadcrumbs nav' _ [IHcache IHsound] Hget
                  |nav _ [IHcache IHsound]].
  - split; [reflexivity|].
    intros nodeId breadcrumbs Hc. cbn in Hc. by rewrite lookup_empty in Hc.
  - unfold getBreadcrumbs in Hget.
    destruct (breadcrumbCache nav !! nodeId) as [cached|] eqn:Hcached.
    + injection Hget as <- <-. by split.
    + destruct (computeBreadcrumbs fuel (nodeCache nav) nodeId) as [computed|]
        eqn:Hcompute; [|discriminate Hget].
      injection Hget as <- <-. split; [exact IHcache|].
      intros nodeId' breadcrumbs'. cbn [breadcrumbCache nodeCache].
      destruct (decide (nodeId = nodeId')) as [<-|Hne].
      * rewrite lookup_insert_eq. intros [= <-]. by exists fuel.
      * rewrite lookup_insert_ne by done. apply IHsound.
  - split; [exact IHcache|].
    intros nodeId breadcrumbs Hc. cbn in Hc. by rewrite lookup_empty in Hc.
Qed.

(** A sound cache answers like the computation wherever the computation does
    not depend on the fuel. *)
Lemma getBreadcrumbs_sound fuel nav nodeId breadcrumbs :
  cacheSound nav ->
  (forall fuel', computeBreadcrumbs fuel' (nodeCache nav) nodeId = Some breadcrumbs) ->
  exists nav', getBreadcrumbs fuel nav nodeId = Some (breadcrumbs, nav')
               /\ nodeCache nav' = nodeCache nav.
Proof.
  intros Hsound Hcompute. unfold getBreadcrumbs.
  destruct (breadcrumbCache nav !! nodeId) as [cached|] eqn:Hcached.
  - destruct (Hsound _ _ Hcached) as [fuel' Hfuel'].
    rewrite Hcompute in Hfuel'. injection Hfuel' as <-. by eexists.
  - rewrite Hcompute. simpl. by eexists.
Qed.

(** C9: in every navigator of a valid tree whose root node has no parent,
    [getBreadcrumbs] of the root returns exactly one entry, labelled "Start";
    and at every id missing from the index it returns the empty trail. *)
Theorem C9_breadcrumbs_of_root_and_absent t nav fuel :
  navReachable t nav ->
  (isValid (validateCompactTree t) = true ->
   (forall rootNode, nodeCache nav !! root t = Some rootNode ->
                     JS.truthy (node_p rootNode) = false) ->
   exists rootNode nav',
     nodeCache nav !! root t = Some rootNode
     /\ getBreadcrumbs fuel nav (root t)
        = Some ([ {| bc_nodeId := node_id rootNode; bc_label := "Start";
                     bc_player := node_pl rootNode; bc_action := "ROOT" |} ], nav'))
  /\ (forall nodeId,
        nodeCache nav !! nodeId = None ->
        exists nav', getBreadcrumbs fuel nav nodeId = Some ([], nav')).
Proof.
  intros Hreach. destruct (navReachable_inv t nav Hreach) as [Hcache Hsound].
  split.
  - intros Hvalid Hparentless.
    destruct (valid_root_indexed t Hvalid) as [rootNode HrootNode].
    rewrite <- Hcache in HrootNode.
    destruct (getBreadcrumbs_sound fuel nav (root t)
                [ {| bc_nodeId := node_id rootNode; bc_label := "Start";
                     bc_player := node_pl rootNode; bc_action := "ROOT" |} ] Hsound)
      as (nav' & Hget & _).
    { intros fuel'. apply computeBreadcrumbs_parentless; [done|].
      by apply Hparentless. }
    by exists rootNode, nav'.
  - intros nodeId Habsent.
    destruct (getBreadcrumbs_sound fuel nav nodeId [] Hsound) as (nav' & Hget & _).
    { intros fuel'. by apply computeBreadcrumbs_absent. }
    by exists nav'.
Qed.

Lemma warmNavigator_reachable : navReachable callTree warmNavigator.
Proof.
  unfold warmNavigator.
  destruct (getBreadcrumbs 5 (constructor callTree) "n2") as [[trail nav]|] eqn:H1;
    [|constructor].
  assert (navReachable callTree nav) as Hnav
    by (eapply reach_getBreadcrumbs; [constructor | exact H1]).
  destruct (getBreadcrumbs 5 nav "n0") as [[trail' nav']|] eqn:H2; [|exact Hnav].
  eapply reach_getBreadcrumbs; [exact Hnav | exact H2].
Qed.

Example warmNavigator_trail :
  fst <$> getBreadcrumbs 5 (constructor callTree) "n2"
  = Some [ {| bc_nodeId := "n0"; bc_label := "Start"; bc_player := 0;
              bc_action := "ROOT" |};
           {| bc_nodeId := "n0"; bc_label := "Call"; bc_player := 0;
              bc_action := "C" |};
           {| bc_nodeId := "n1"; bc_label := "Check"; bc_player := 1;
              bc_action := "X" |} ].
Proof. vm_compute. reflexivity. Qed.

Lemma C9_breadcrumbs_of_root_and_absent_witness :
  (exists rootNode nav',
     nodeCache warmNavigator !! "n0" = Some rootNode
     /\ getBreadcrumbs 0 warmNavigator "n0"
        = Some ([ {| bc_nodeId := node_id rootNode; bc_label := "Start";
                     bc_player := node_pl rootNode; bc_action := "ROOT" |} ], nav'))
  /\ (exists nav', getBreadcrumbs 0 warmNavigator "ghost" = Some ([], nav')).
Proof.
  destruct (C9_breadcrumbs_of_root_and_absent callTree warmNavigator 0
              warmNavigator_reachable) as [Hroot Habsent].
  split.
  - apply Hroot.
    + vm_compute. reflexivity.
    + intros rootNode HrootNode. vm_compute in HrootNode.
      injection HrootNode as <-. reflexivity.
  - apply Habsent. vm_compute. reflexivity.
Defined.

(** ** Terminal nodes *)

(** Where [traverse] stops: at a node already visited and at an id that is
    not indexed it returns, and at the first indexed node it reaches the call
    of [isTerminal] and throws, before any target is followed. *)
Lemma traverse_first_node fuel cache nodeId st :
  traverse (S fuel) cache nodeId st
  = Some (if decide (nodeId ∈ visited st) then JS.Normal st
          else match cache !! nodeId with
               | Some _ => JS.Throw NavigatorScope.typeError
               | None =>
                   JS.Normal {| visited := {[nodeId]} ∪ visited st;
                                terminals := terminals st |}
               end).
Proof.
  cbn [traverse]. case_decide; [done|]. by destruct (cache !! nodeId).
Qed.

(** C7, the code against the claim: [getTerminalNodes] returns a list only
    for a start id that is not indexed, and then the empty list; for every
    indexed start id it throws the TypeError of the call
    [CompactTreeUtils.isTerminal(node)], whatever the flags of the node.  In
    [callTree] the terminal node [n2] is reachable from the root [n0], and
    the call from [n0], from [n1] and from [n2] itself throws. *)
Theorem C7_terminal_nodes_throws_at_indexed_start :
  (forall nav startNodeId,
     getTerminalNodes nav startNodeId
     = Some (match nodeCache nav !! startNodeId with
             | Some _ => JS.Throw NavigatorScope.typeError
             | None => JS.Normal []
             end))
  /\ CompactTreeUtils.isTerminal <$> nodeCache (constructor callTree) !! "n2"
     = Some true
  /\ navigateByPath (constructor callTree) "n0" ["C"; "X"] = Some "n2"
  /\ getTerminalNodes (constructor callTree) "n0"
     = Some (JS.Throw "TypeError: CompactTreeUtils.isTerminal is not a function")
  /\ getTerminalNodes (constructor callTree) "n2"
     = Some (JS.Throw "TypeError: CompactTreeUtils.isTerminal is not a function").
Proof.
  split; [|by vm_compute].
  intros nav startNodeId. unfold getTerminalNodes.
  rewrite traverse_first_node. cbn [visited].
  rewrite decide_False by apply not_elem_of_empty.
  by destruct (nodeCache nav !! startNodeId).
Qed.

(** * Part IV: further properties *)

(** ** Seats *)

(** X1: at a table of 2 to 9 players [getPositionNames] names each seat once,
    the last two seats being the small and the big blind; for every other
    player count it falls back to the two heads-up seats. *)
Theorem X1_position_names playerCount :
  (2 <= playerCount <= 9 ->
   length (getPositionNames playerCount) = Z.to_nat playerCount
   /\ NoDup (getPositionNames playerCount)
   /\ JS.index (getPositionNames playerCount) (playerCount - 2) = Some "SB"
   /\ JS.index (getPositionNames playerCount) (playerCount - 1) = Some "BB")
  /\ (playerCount < 2 \/ 9 < playerCount ->
      getPositionNames playerCount = ["SB"; "BB"]).
Proof.
  split.
  - intros Hcount.
    assert (playerCount = 2 \/ playerCount = 3 \/ playerCount = 4 \/ playerCount = 5
            \/ playerCount = 6 \/ playerCount = 7 \/ playerCount = 8
            \/ playerCount = 9) as Hcases by lia.
    repeat destruct Hcases as [->|Hcases]; try subst playerCount;
      (repeat split; try reflexivity;
       apply (bool_decide_unpack _); vm_compute; exact I).
  - intros Hout. unfold getPositionNames. by rewrite !decide_False by lia.
Qed.

Lemma X1_position_names_witness :
  getPositionNames 6 = ["MP"; "HJ"; "CO"; "BU"; "SB"; "BB"]
  /\ length (getPositionNames 6) = 6%nat
  /\ JS.index (getPositionNames 6) 4 = Some "SB"
  /\ getPositionNames 12 = ["SB"; "BB"].
Proof.
  destruct (X1_position_names 6) as [Hin _].
  destruct (X1_position_names 12) as [_ Hout].
  destruct Hin as (Hlen & _ & Hsb & _); [lia|].
  split; [reflexivity|]. split; [exact Hlen|]. split; [exact Hsb|].
  apply Hout. lia.
Defined.

(** ** Stacks *)

Lemma wagered_filter playerIndex actionSequence :
  wagered playerIndex (List.filter (ownWager playerIndex) actionSequence)
  = wagered playerIndex actionSequence.
Proof.
  induction actionSequence as [|action rest IH]; [reflexivity|].
  cbn [List.filter]. unfold ownWager at 1.
  destruct (bool_decide (player action = playerIndex)) eqn:Hp;
    destruct (bool_decide (type action = "C")) eqn:Hc;
    destruct (bool_decide (type action = "R")) eqn:Hr;
    destruct (bool_decide (type action = "A")) eqn:Ha;
    cbn [andb orb wagered]; rewrite IH; try reflexivity;
    rewrite ?bool_decide_eq_false in *; rewrite decide_False; try lia; tauto.
Qed.

Lemma wagered_perm playerIndex seq1 seq2 :
  seq1 ≡ₚ seq2 -> wagered playerIndex seq1 = wagered playerIndex seq2.
Proof. induction 1; cbn [wagered]; lia. Qed.

(** X2: a player's stack depends on the sequence only through the player's
    own calls, raises and all-ins, in whatever order: all other actions can
    be dropped, and the sequence can be permuted. *)
Theorem X2_stack_own_wagers_only playerIndex settings :
  (forall actionSequence,
     calculatePlayerStackAbsolute playerIndex settings actionSequence
     = calculatePlayerStackAbsolute playerIndex settings
         (List.filter (ownWager playerIndex) actionSequence))
  /\ (forall seq1 seq2,
        seq1 ≡ₚ seq2 ->
        calculatePlayerStackAbsolute playerIndex settings seq1
        = calculatePlayerStackAbsolute playerIndex settings seq2).
Proof.
  split.
  - intros. by rewrite !stack_closed_form, wagered_filter.
  - intros seq1 seq2 Hperm. by rewrite !stack_closed_form, (wagered_perm _ _ _ Hperm).
Qed.

Lemma X2_stack_own_wagers_only_witness :
  calculatePlayerStackAbsolute 3 sixMax sixMaxHand
  = calculatePlayerStackAbsolute 3 sixMax (rev sixMaxHand).
Proof.
  apply (proj2 (X2_stack_own_wagers_only 3 sixMax)).
  apply Permutation_rev.
Defined.

Lemma wagered_nonneg playerIndex actionSequence :
  Forall (fun action => 0 <= amount action) actionSequence ->
  0 <= wagered playerIndex actionSequence.
Proof.
  induction 1 as [|action rest Hamount _ IH]; cbn [wagered]; [lia|].
  case_decide; lia.
Qed.

(** X3: further actions with non-negative amounts never raise a stack, and an
    amount that is all-in for a player stays all-in after them. *)
Theorem X3_stack_only_shrinks playerIndex settings seq more :
  Forall (fun action => 0 <= amount action) more ->
  calculatePlayerStackAbsolute playerIndex settings (seq ++ more)
  <= calculatePlayerStackAbsolute playerIndex settings seq
  /\ forall actionAmount,
       isActionAllIn actionAmount playerIndex settings seq = true ->
       isActionAllIn actionAmount playerIndex settings (seq ++ more) = true.
Proof.
  intros Hmore.
  assert (calculatePlayerStackAbsolute playerIndex settings (seq ++ more)
          <= calculatePlayerStackAbsolute playerIndex settings seq) as Hle.
  { rewrite !stack_closed_form, wagered_app.
    pose proof (wagered_nonneg playerIndex more Hmore). lia. }
  split; [exact Hle|].
  intros actionAmount. unfold isActionAllIn. rewrite !bool_decide_eq_true. lia.
Qed.

Lemma X3_stack_only_shrinks_witness :
  calculatePlayerStackAbsolute 3 sixMax (take 3 sixMaxHand ++ drop 3 sixMaxHand)
  <= calculatePlayerStackAbsolute 3 sixMax (take 3 sixMaxHand).
Proof.
  apply X3_stack_only_shrinks.
  repeat constructor; simpl; lia.
Defined.

(** ** Pot and contributions *)

Lemma update_length arr i f : length (JS.update arr i f) = length arr.
Proof. unfold JS.update. case_decide; [|done]. apply length_alter. Qed.

Lemma sumZ_cons x l : sumZ (x :: l) = x + sumZ l.
Proof. reflexivity. Qed.

Lemma sumZ_alter_add (arr : list Z) x : forall i,
  (i < length arr)%nat ->
  sumZ (alter (fun c => c + x) i arr) = sumZ arr + x.
Proof.
  induction arr as [|y arr IH]; intros i Hi; [simpl in Hi; lia|].
  destruct i as [|i]; cbn [alter list_alter]; rewrite !sumZ_cons; [lia|].
  cbn [length] in Hi. rewrite IH by lia. lia.
Qed.

Lemma sumZ_update_add arr i x :
  0 <= i < Z.of_nat (length arr) ->
  sumZ (JS.update arr i (fun c => c + x)) = sumZ arr + x.
Proof.
  intros Hi. unfold JS.update. rewrite decide_True by lia.
  apply sumZ_alter_add. lia.
Qed.

Lemma sumZ_replicate_zero n : sumZ (replicate n 0) = 0.
Proof. induction n as [|n IH]; simpl; [done|]. rewrite IH. lia. Qed.

(** Both blinds have a seat, and the seat is at the table. *)
Lemma blind_seats count :
  2 <= count ->
  0 <= JS.indexOf (getPositionNames count) "SB" < count
  /\ 0 <= JS.indexOf (getPositionNames count) "BB" < count.
Proof.
  intros Hcount. unfold getPositionNames.
  repeat case_decide; subst; vm_compute JS.indexOf; lia.
Qed.

Lemma chipsIn_test action :
  bool_decide (type action <> "F") && bool_decide (type action <> "X")
  && bool_decide (JS.num_or (amount action) 0 > 0)
  = bool_decide (chipsIn action > 0).
Proof.
  unfold chipsIn. rewrite num_or_zero.
  destruct (bool_decide (type action <> "F") && bool_decide (type action <> "X"));
    cbn [andb]; [|by rewrite bool_decide_eq_false_2 by lia].
  destruct (bool_decide (amount action > 0)) eqn:Hamount; [|].
  - apply bool_decide_eq_true in Hamount. by rewrite bool_decide_eq_true_2.
  - by rewrite bool_decide_eq_false_2 by lia.
Qed.

Lemma chipsIn_amount action : chipsIn action > 0 -> chipsIn action = amount action.
Proof. unfold chipsIn. destruct (_ && _); lia. Qed.

Lemma chipsIn_nonneg action : 0 <= chipsIn action.
Proof.
  unfold chipsIn. destruct (_ && _) eqn:H; [|lia].
  apply andb_prop in H as [_ H]. apply bool_decide_eq_true in H. lia.
Qed.

Lemma potStep_lengths currentStreet acc action :
  length (playerTotalContributions (potStep currentStreet acc action))
  = length (playerTotalContributions acc)
  /\ length (playerCurrentStreetContributions (potStep currentStreet acc action))
     = length (playerCurrentStreetContributions acc).
Proof.
  unfold potStep. destruct (_ && _ && _); [|done].
  case_decide; [|done]. cbn. rewrite update_length. split; [done|].
  repeat case_decide; by rewrite ?update_length.
Qed.

Lemma potStep_totalPot currentStreet acc action :
  totalPot (potStep currentStreet acc action) = totalPot acc + chipsIn action.
Proof.
  unfold potStep. rewrite chipsIn_test.
  case_bool_decide as Hin.
  - rewrite num_or_zero, (chipsIn_amount _ Hin). by case_decide.
  - pose proof (chipsIn_nonneg action). lia.
Qed.

Lemma potStep_total_sum currentStreet acc action :
  (chipsIn action > 0 ->
   0 <= player action < Z.of_nat (length (playerTotalContributions acc))) ->
  sumZ (playerTotalContributions (potStep currentStreet acc action))
  = sumZ (playerTotalContributions acc) + chipsIn action.
Proof.
  intros Hseat. unfold potStep. rewrite chipsIn_test.
  case_bool_decide as Hin.
  - rewrite num_or_zero, (chipsIn_amount _ Hin).
    rewrite decide_True by (apply Hseat in Hin; lia). cbn.
    apply sumZ_update_add. by apply Hseat.
  - pose proof (chipsIn_nonneg action). lia.
Qed.

Lemma foldl_potStep_pot currentStreet sequence : forall acc,
  totalPot (foldl (potStep currentStreet) acc sequence)
  = totalPot acc + sumZ (chipsIn <$> sequence).
Proof.
  induction sequence as [|action rest IH]; intros acc; cbn [foldl fmap list_fmap sumZ foldr].
  - lia.
  - rewrite IH, potStep_totalPot. fold (sumZ (chipsIn <$> rest)). lia.
Qed.

Lemma foldl_potStep_lengths currentStreet sequence : forall acc,
  length (playerTotalContributions (foldl (potStep currentStreet) acc sequence))
  = length (playerTotalContributions acc)
  /\ length (playerCurrentStreetContributions
               (foldl (potStep currentStreet) acc sequence))
     = length (playerCurrentStreetContributions acc).
Proof.
  induction sequence as [|action rest IH]; intros acc; cbn [foldl]; [done|].
  destruct (IH (potStep currentStreet acc action)) as [-> ->].
  apply potStep_lengths.
Qed.

Lemma foldl_potStep_total_sum currentStreet sequence : forall acc,
  Forall (fun action =>
            chipsIn action > 0 ->
            0 <= player action < Z.of_nat (length (playerTotalContributions acc)))
         sequence ->
  sumZ (playerTotalContributions (foldl (potStep currentStreet) acc sequence))
  = sumZ (playerTotalContributions acc) + sumZ (chipsIn <$> sequence).
Proof.
  induction sequence as [|action rest IH]; intros acc Hseats;
    cbn [foldl fmap list_fmap sumZ foldr]; [lia|].
  apply Forall_cons in Hseats as [Hseat Hseats].
  rewrite IH, potStep_total_sum by
    (try done; by rewrite (proj1 (potStep_lengths _ _ _))).
  fold (sumZ (chipsIn <$> rest)). lia.
Qed.

(** The run is the loop from [potStart]. *)
Lemma pot_run settings currentStreet sequence :
  2 <= playerCount settings ->
  calculatePotAndContributions settings currentStreet sequence
  = Some (foldl (potStep currentStreet) (potStart settings currentStreet) sequence).
Proof.
  intros Hcount. unfold calculatePotAndContributions, potStart.
  rewrite decide_True by done. rewrite !num_or_zero.
  destruct (blind_seats _ Hcount) as [Hsb Hbb].
  rewrite !decide_True by lia.
  repeat case_decide; reflexivity.
Qed.

Lemma potStart_facts settings currentStreet :
  2 <= playerCount settings ->
  length (playerTotalContributions (potStart settings currentStreet))
  = Z.to_nat (playerCount settings)
  /\ length (playerCurrentStreetContributions (potStart settings currentStreet))
     = Z.to_nat (playerCount settings)
  /\ sumZ (playerTotalContributions (potStart settings currentStreet))
     = sb (blinds settings) + bb (blinds settings).
Proof.
  intros Hcount. unfold potStart. cbn.
  destruct (blind_seats _ Hcount) as [Hsb Hbb].
  rewrite !update_length, !length_replicate.
  split; [done|].
  split; [by case_decide; rewrite ?update_length, ?length_replicate|].
  rewrite !sumZ_update_add, sumZ_replicate_zero
    by (rewrite ?update_length, length_replicate; lia). lia.
Qed.

(** X4: at a table of two or more seats the pot is the antes, the two blinds
    and the chips of every action that is neither a fold nor a check; the two
    contribution arrays keep one entry per seat; and when every such action
    is by a seat of the table, the pot is the antes plus the players' total
    contributions. *)
Theorem X4_pot_conservation settings currentStreet sequence :
  2 <= playerCount settings ->
  exists r,
    calculatePotAndContributions settings currentStreet sequence = Some r
    /\ totalPot r
       = (if decide (ante (blinds settings) > 0)
          then ante (blinds settings) * playerCount settings else 0)
         + sb (blinds settings) + bb (blinds settings)
         + sumZ (chipsIn <$> sequence)
    /\ length (playerTotalContributions r) = Z.to_nat (playerCount settings)
    /\ length (playerCurrentStreetContributions r) = Z.to_nat (playerCount settings)
    /\ (Forall (fun action =>
                  chipsIn action > 0 -> 0 <= player action < playerCount settings)
               sequence ->
        totalPot r
        = (if decide (ante (blinds settings) > 0)
           then ante (blinds settings) * playerCount settings else 0)
          + sumZ (playerTotalContributions r)).
Proof.
  intros Hcount. rewrite pot_run by done.
  destruct (potStart_facts settings currentStreet Hcount) as (Hlt & Hlc & Hsum).
  eexists. split; [reflexivity|].
  destruct (foldl_potStep_lengths currentStreet sequence
              (potStart settings currentStreet)) as [-> ->].
  rewrite foldl_potStep_pot. split; [cbn; lia|]. split; [done|]. split; [done|].
  intros Hseats. rewrite foldl_potStep_total_sum, Hsum; [cbn; lia|].
  eapply Forall_impl; [exact Hseats|].
  intros action Hseat Hin. apply Hseat in Hin. rewrite Hlt. lia.
Qed.

Lemma X4_pot_conservation_witness :
  exists r,
    calculatePotAndContributions sixMax 1 sixMaxHand = Some r
    /\ totalPot r = 91
    /\ totalPot r = 6 + sumZ (playerTotalContributions r).
Proof.
  destruct (X4_pot_conservation sixMax 1 sixMaxHand) as (r & Hr & Hpot & _ & _ & Hsum).
  - simpl. lia.
  - exists r. split; [exact Hr|]. split; [exact Hpot|].
    apply Hsum. repeat constructor; simpl; lia.
Defined.

Lemma potStep_other_street currentStreet acc action :
  street action <> currentStreet ->
  playerCurrentStreetContributions (potStep currentStreet acc action)
  = playerCurrentStreetContributions acc.
Proof.
  intros Hstreet. unfold potStep. destruct (_ && _ && _); [|done].
  case_decide; [|done]. cbn. by rewrite decide_False.
Qed.

Lemma potStep_current_ext currentStreet acc acc' action :
  playerCurrentStreetContributions acc = playerCurrentStreetContributions acc' ->
  length (playerTotalContributions acc) = length (playerTotalContributions acc') ->
  playerCurrentStreetContributions (potStep currentStreet acc action)
  = playerCurrentStreetContributions (potStep currentStreet acc' action).
Proof.
  intros Hcur Hlen. unfold potStep. rewrite Hlen.
  destruct (_ && _ && _); [|done].
  case_decide; [|done]. cbn. by rewrite Hcur.
Qed.

Lemma foldl_potStep_street currentStreet sequence : forall acc acc',
  playerCurrentStreetContributions acc = playerCurrentStreetContributions acc' ->
  length (playerTotalContributions acc) = length (playerTotalContributions acc') ->
  playerCurrentStreetContributions (foldl (potStep currentStreet) acc sequence)
  = playerCurrentStreetContributions
      (foldl (potStep currentStreet) acc'
         (List.filter (fun action => bool_decide (street action = currentStreet))
                      sequence)).
Proof.
  induction sequence as [|action rest IH]; intros acc acc' Hcur Hlen;
    cbn [foldl List.filter]; [done|].
  case_bool_decide as Hstreet; cbn [foldl].
  - apply IH; [by apply potStep_current_ext|].
    by rewrite !(proj1 (potStep_lengths _ _ _)).
  - apply IH; [by rewrite potStep_other_street|].
    by rewrite (proj1 (potStep_lengths _ _ _)).
Qed.

(** X5: the current-street contributions depend only on the actions of the
    current street; past the first street, where no blind is seeded, they are
    all zero as long as nobody has acted on the street. *)
Theorem X5_current_street_only settings currentStreet sequence :
  2 <= playerCount settings ->
  playerCurrentStreetContributions
    <$> calculatePotAndContributions settings currentStreet sequence
  = playerCurrentStreetContributions
      <$> calculatePotAndContributions settings currentStreet
            (List.filter (fun action => bool_decide (street action = currentStreet))
                         sequence)
  /\ (currentStreet <> 0 ->
      Forall (fun action => street action <> currentStreet) sequence ->
      playerCurrentStreetContributions
        <$> calculatePotAndContributions settings currentStreet sequence
      = Some (replicate (Z.to_nat (playerCount settings)) 0)).
Proof.
  intros Hcount. rewrite !pot_run by done. cbn [fmap option_fmap option_map].
  split.
  - f_equal. by apply foldl_potStep_street.
  - intros Hstreet Hnone. f_equal.
    rewrite (foldl_potStep_street _ _ _ (potStart settings currentStreet)) by done.
    assert (List.filter (fun action => bool_decide (street action = currentStreet))
                        sequence = []) as ->.
    { induction Hnone as [|action rest Hne _ IH]; [done|].
      cbn [List.filter]. by rewrite bool_decide_eq_false_2. }
    cbn. by rewrite decide_False.
Qed.

Lemma X5_current_street_only_witness :
  playerCurrentStreetContributions <$> calculatePotAndContributions sixMax 1 sixMaxHand
  = Some [0; 0; 0; 30; 0; 0]
  /\ playerCurrentStreetContributions
       <$> calculatePotAndContributions sixMax 2 sixMaxHand
     = Some [0; 0; 0; 0; 0; 0].
Proof.
  destruct (X5_current_street_only sixMax 1 sixMaxHand) as [Hfilter _]; [simpl; lia|].
  destruct (X5_current_street_only sixMax 2 sixMaxHand) as [_ Hzero]; [simpl; lia|].
  split.
  - rewrite Hfilter. vm_compute. reflexivity.
  - apply Hzero; [lia|]. repeat constructor; simpl; lia.
Defined.

(** ** The stacks of the table preview *)

Lemma update_lookup_nat (arr : list Z) (i j : nat) f :
  JS.update arr (Z.of_nat i) f !! j
  = if decide (i = j) then f <$> arr !! j else arr !! j.
Proof.
  unfold JS.update. rewrite decide_True by lia. rewrite Nat2Z.id.
  case_decide as Hij.
  - subst. apply list_lookup_alter_eq.
  - by apply list_lookup_alter_ne.
Qed.

(** One guarded subtraction of [postBlinds]. *)
Lemma guarded_subtract_lookup (test : bool) (stacks : list Z) (index j : nat) x :
  (if test && bool_decide (index < length stacks)%nat
   then JS.update stacks (Z.of_nat index) (fun c => c - x) else stacks) !! j
  = if decide (index = j)
    then (fun c => c - (if test then x else 0)) <$> stacks !! j
    else stacks !! j.
Proof.
  assert (forall o : option Z, o = (fun c : Z => c - 0) <$> o) as Hid.
  { intros [c|]; cbn; [f_equal; lia|done]. }
  destruct test; cbn [andb]; [|case_decide; [apply Hid|done]].
  case_bool_decide as Hin.
  - apply update_lookup_nat.
  - case_decide as Hij; [|done]. subst.
    by rewrite (lookup_ge_None_2 stacks j) by lia.
Qed.

Lemma postBlinds_lookup sb bb ante stacks pos index j :
  postBlinds sb bb ante stacks pos index !! j
  = if decide (index = j)
    then (fun c => c - blindOf sb bb ante pos) <$> stacks !! j
    else stacks !! j.
Proof.
  unfold postBlinds. cbv zeta. rewrite !guarded_subtract_lookup.
  case_decide as Hij; [|done].
  unfold blindOf. destruct (stacks !! j); cbn; [|done]. f_equal.
  repeat case_bool_decide; repeat case_decide; try done; lia.
Qed.

Lemma forEach_postBlinds_lookup sb bb ante positions : forall index stacks j,
  forEachIndexed (postBlinds sb bb ante) positions index stacks !! j
  = (fun c =>
       c - (if decide (index <= j)%nat
            then from_option (blindOf sb bb ante) 0 (positions !! (j - index)%nat)
            else 0))
      <$> stacks !! j.
Proof.
  induction positions as [|pos positions IH]; intros index stacks j;
    cbn [forEachIndexed].
  - rewrite lookup_nil. cbn. destruct (stacks !! j); cbn; [|done].
    f_equal. case_decide; lia.
  - rewrite IH, postBlinds_lookup.
    destruct (decide (index = j)) as [->|Hne].
    + rewrite decide_False, decide_True by lia. rewrite Nat.sub_diag. cbn.
      destruct (stacks !! j); cbn; [|done]. f_equal. lia.
    + destruct (stacks !! j); cbn; [|done]. f_equal.
      destruct (decide (S index <= j)%nat) as [Hle|Hgt].
      * rewrite decide_True by lia.
        replace (j - index)%nat with (S (j - S index)) by lia. done.
      * by rewrite decide_False by lia.
Qed.

Lemma payAction_length stacks action : length (payAction stacks action) = length stacks.
Proof.
  unfold payAction. destruct (_ && _ && _); [|done].
  case_decide; by rewrite ?update_length.
Qed.

Lemma payAction_lookup stacks action (j : nat) :
  payAction stacks action !! j
  = (fun c => c - paid j [action]) <$> stacks !! j.
Proof.
  unfold payAction. cbn [paid]. rewrite chipsIn_test.
  assert (forall o : option Z, o = (fun c : Z => c - (0 + 0)) <$> o) as Hid.
  { intros [c|]; cbn; [f_equal; lia|done]. }
  case_bool_decide as Hin.
  2: { pose proof (chipsIn_nonneg action).
       replace (chipsIn action) with 0 by lia.
       case_decide; apply Hid. }
  rewrite num_or_zero, <- (chipsIn_amount _ Hin).
  destruct (decide (player action = Z.of_nat j)) as [Hj|Hj].
  - destruct (decide (j < length stacks)%nat) as [Hlt|Hge].
    + rewrite decide_True by lia. rewrite Hj, update_lookup_nat, decide_True by done.
      destruct (stacks !! j); cbn; [f_equal; lia|done].
    + rewrite decide_False by lia. rewrite (lookup_ge_None_2 stacks j) by lia. done.
  - case_decide; [|apply Hid].
    unfold JS.update. case_decide; [|apply Hid].
    rewrite list_lookup_alter_ne by lia. apply Hid.
Qed.

Lemma foldl_payAction_lookup sequence (j : nat) : forall stacks,
  foldl payAction stacks sequence !! j
  = (fun c => c - paid j sequence) <$> stacks !! j.
Proof.
  induction sequence as [|action rest IH]; intros stacks; cbn [foldl paid].
  - destruct (stacks !! j); cbn; [f_equal; lia|done].
  - rewrite IH, payAction_lookup. cbn [paid].
    destruct (stacks !! j); cbn; [f_equal; lia|done].
Qed.

Lemma positions_num_or count :
  getPositionNames (JS.num_or count 2) = getPositionNames count.
Proof. unfold JS.num_or. case_decide; by subst. Qed.

Lemma paid_wagered (j : nat) sequence :
  plainActions (Z.of_nat j) sequence ->
  paid j sequence = wagered (Z.of_nat j) sequence.
Proof.
  induction 1 as [|action rest Hplain _ IH]; cbn [paid wagered]; [done|].
  rewrite IH. f_equal.
  destruct (decide (player action = Z.of_nat j)) as [Hj|Hj].
  - destruct (Hplain Hj) as [Hamount Htype]. unfold chipsIn.
    repeat case_bool_decide; cbn [andb]; case_decide as Hown; try lia;
      exfalso; destruct Htype as [Ht|[Ht|[Ht|[Ht|Ht]]]];
      rewrite Ht in *;
      first [ done
            | by destruct Hown as [_ [?|[?|?]]]
            | apply Hown; auto ].
  - rewrite decide_False; [done|]. by intros [? _].
Qed.

(** What [getPlayerStacks] leaves at a seat. *)
Lemma getPlayerStacks_lookup settings sequence (j : nat) :
  getPlayerStacks settings sequence !! j
  = (fun c =>
       c - from_option (blindOf (sb (blinds settings)) (bb (blinds settings))
                                (ante (blinds settings)))
                       0 (getPositionNames (playerCount settings) !! j)
         - paid j sequence)
      <$> stacks settings !! j.
Proof.
  unfold getPlayerStacks.
  rewrite foldl_payAction_lookup, forEach_postBlinds_lookup, !num_or_zero.
  rewrite decide_True by lia. rewrite Nat.sub_0_r.
  by destruct (stacks settings !! j).
Qed.

(** X6: the table preview and [calculatePlayerStackAbsolute] show the same
    stack.  For a seat of the table whose entry of [stacks] is not zero, and
    a sequence in which the player's actions are folds, checks, calls,
    raises or all-ins of non-negative amount, the entry of [getPlayerStacks],
    clamped at 0 as the preview displays it, is
    [calculatePlayerStackAbsolute]. *)
Theorem X6_preview_stack_agrees settings sequence playerIndex stack :
  0 <= playerIndex ->
  JS.index (stacks settings) playerIndex = Some stack ->
  stack <> 0 ->
  is_Some (seat playerIndex settings) ->
  plainActions playerIndex sequence ->
  Z.max 0 <$> JS.index (getPlayerStacks settings sequence) playerIndex
  = Some (calculatePlayerStackAbsolute playerIndex settings sequence).
Proof.
  intros Hindex Hstack Hnonzero [pos Hpos] Hplain.
  rewrite stack_closed_form.
  assert (startingStack playerIndex settings = stack) as ->.
  { unfold startingStack. rewrite Hstack. by rewrite decide_False. }
  assert (posted playerIndex settings
          = blindOf (sb (blinds settings)) (bb (blinds settings))
                    (ante (blinds settings)) pos) as ->.
  { unfold posted, blindOf. rewrite Hpos.
    repeat case_decide; simplify_eq; lia. }
  unfold seat in Hpos. rewrite positions_num_or in Hpos.
  unfold JS.index in *.
  rewrite decide_True in Hstack by done. rewrite decide_True in Hpos by done.
  rewrite decide_True by done.
  rewrite getPlayerStacks_lookup, Hstack, Hpos. cbn.
  rewrite paid_wagered by (by rewrite Z2Nat.id).
  by rewrite Z2Nat.id by done.
Qed.

Lemma X6_preview_stack_agrees_witness :
  Z.max 0 <$> JS.index (getPlayerStacks sixMax sixMaxHand) 3
  = Some (calculatePlayerStackAbsolute 3 sixMax sixMaxHand).
Proof.
  apply (X6_preview_stack_agrees sixMax sixMaxHand 3 1000).
  - lia.
  - reflexivity.
  - lia.
  - by eexists.
  - unfold plainActions, sixMaxHand.
    repeat (apply Forall_cons; split); [..|by apply Forall_nil];
      simpl; intros Hp; first [exfalso; lia | split; [lia | auto 10]].
Defined.

(** ** Player status and the button *)

Lemma find_app {A} (P : A -> bool) (l1 l2 : list A) :
  List.find P (l1 ++ l2)
  = match List.find P l1 with
    | Some x => Some x
    | None => List.find P l2
    end.
Proof.
  induction l1 as [|x l1 IH]; [done|]. cbn. by destruct (P x).
Qed.

Lemma find_rev_snoc {A} (P : A -> bool) (l : list A) (x : A) :
  List.find P (rev (l ++ [x]))
  = if P x then Some x else List.find P (rev l).
Proof. by rewrite rev_unit. Qed.

Lemma last_filter_snoc {A} (P : A -> bool) (l : list A) (x : A) :
  last (List.filter P (l ++ [x]))
  = if P x then Some x else last (List.filter P l).
Proof.
  rewrite List.filter_app. cbn. destruct (P x).
  - apply last_snoc.
  - by rewrite app_nil_r.
Qed.

(** The loop from the end finds the last action that passes the test. *)
Lemma find_rev_last {A} (P : A -> bool) (l : list A) :
  List.find P (rev l) = last (List.filter P l).
Proof.
  induction l as [|x l IH] using rev_ind; [done|].
  rewrite find_rev_snoc, last_filter_snoc. by rewrite IH.
Qed.

(** X7: a player shows as folded exactly when the last action of that player
    in the sequence is a fold; an action of another player appended to the
    sequence leaves every other status as it is. *)
Theorem X7_folded_iff_last_action_is_fold sequence playerIndex :
  (getPlayerStatus sequence playerIndex = "folded"
   <-> type <$> last (List.filter
                        (fun action => bool_decide (player action = playerIndex))
                        sequence)
       = Some "F")
  /\ (getPlayerStatus sequence playerIndex = "folded"
      \/ getPlayerStatus sequence playerIndex = "active")
  /\ forall action,
       player action <> playerIndex ->
       getPlayerStatus (sequence ++ [action]) playerIndex
       = getPlayerStatus sequence playerIndex.
Proof.
  unfold getPlayerStatus. split; [|split].
  - rewrite find_rev_last. destruct (last _) as [action|]; cbn; [|done].
    case_decide as Htype; [by rewrite Htype|].
    split; [done|]. intros [= ?]. done.
  - destruct (List.find _ _); [case_decide|]; auto.
  - intros action Hother. rewrite find_rev_snoc.
    by rewrite bool_decide_eq_false_2.
Qed.

Lemma X7_folded_iff_last_action_is_fold_witness :
  getPlayerStatus sixMaxHand 4 = "folded"
  /\ getPlayerStatus (sixMaxHand ++ [ {| player := 5; type := "F"; amount := 0;
                                         street := 1 |} ]) 4
     = "folded".
Proof.
  destruct (X7_folded_iff_last_action_is_fold sixMaxHand 4) as (Hiff & _ & Happend).
  assert (getPlayerStatus sixMaxHand 4 = "folded") as Hfolded
    by (apply Hiff; reflexivity).
  split; [exact Hfolded|].
  rewrite Happend; [exact Hfolded|]. simpl. lia.
Defined.

(** X8: heads-up the button is the small blind, seat 0; at 3 to 9 players it
    is the seat named BU, right before the small blind; at any other player
    count there is no BU seat and the index is -1, so that no seat shows the
    button. *)
Theorem X8_button_seat settings :
  (playerCount settings = 2 -> getButtonPlayerIndex settings = 0)
  /\ (3 <= playerCount settings <= 9 ->
      getButtonPlayerIndex settings = playerCount settings - 3
      /\ JS.index (getPositionNames (playerCount settings))
                  (getButtonPlayerIndex settings) = Some "BU"
      /\ JS.index (getPositionNames (playerCount settings))
                  (getButtonPlayerIndex settings + 1) = Some "SB")
  /\ (playerCount settings < 2 \/ 9 < playerCount settings ->
      getButtonPlayerIndex settings = -1).
Proof.
  unfold getButtonPlayerIndex. split; [|split].
  - intros ->. reflexivity.
  - intros Hcount.
    assert (playerCount settings = 3 \/ playerCount settings = 4
            \/ playerCount settings = 5 \/ playerCount settings = 6
            \/ playerCount settings = 7 \/ playerCount settings = 8
            \/ playerCount settings = 9) as Hcases by lia.
    repeat destruct Hcases as [->|Hcases]; try rewrite Hcases; by vm_compute.
  - intros Hout. rewrite decide_False by lia.
    unfold getPositionNames. by rewrite !decide_False by lia.
Qed.

Lemma X8_button_seat_witness :
  getButtonPlayerIndex sixMax = 3
  /\ getButtonPlayerIndex
       {| stacks := []; blinds := {| sb := 1; bb := 2; ante := 0 |};
          playerCount := 10 |} = -1.
Proof.
  split.
  - apply (proj1 (proj2 (X8_button_seat sixMax))). simpl. lia.
  - apply (proj2 (proj2 (X8_button_seat _))). simpl. lia.
Defined.

(** ** Flags and the legacy node format *)

Lemma wrap_mod4 x : Int32.wrap x mod 4 = x mod 4.
Proof.
  unfold Int32.wrap.
  pose proof (Z.div_mod (x + 2 ^ 31) (2 ^ 32) ltac:(lia)) as Hdiv.
  replace ((x + 2 ^ 31) mod 2 ^ 32 - 2 ^ 31)
    with (x + (- (2 ^ 30 * ((x + 2 ^ 31) / 2 ^ 32))) * 4) by lia.
  apply Z.mod_add. lia.
Qed.

Lemma testbit_low_mod4 x n : 0 <= n < 2 -> Z.testbit x n = Z.testbit (x mod 4) n.
Proof.
  intros Hn. change 4 with (2 ^ 2). by rewrite Z.mod_pow2_bits_low by lia.
Qed.

Lemma wrap_testbit_low x n : 0 <= n < 2 -> Z.testbit (Int32.wrap x) n = Z.testbit x n.
Proof.
  intros Hn. by rewrite (testbit_low_mod4 (Int32.wrap x)), wrap_mod4,
    <- testbit_low_mod4.
Qed.

Lemma land_pow2_test x n :
  0 <= n -> bool_decide (Z.land x (2 ^ n) = 2 ^ n) = Z.testbit x n.
Proof.
  intros Hn. destruct (Z.testbit x n) eqn:Hbit.
  - apply bool_decide_eq_true. apply Z.bits_inj'. intros m Hm.
    rewrite Z.land_spec, Z.pow2_bits_eqb by lia.
    destruct (Z.eqb_spec n m) as [->|]; [by rewrite Hbit|apply andb_false_r].
  - apply bool_decide_eq_false. intros Heq.
    assert (Z.testbit (Z.land x (2 ^ n)) n = true) as Hcontra.
    { rewrite Heq, Z.pow2_bits_eqb by lia. apply Z.eqb_refl. }
    rewrite Z.land_spec, Hbit in Hcontra. discriminate Hcontra.
Qed.

(** The two flag tests read bit 0 and bit 1 of [f]. *)
Lemma flags_testbit node :
  CompactTreeUtils.isTerminal node = Z.testbit (node_f node) 0
  /\ CompactTreeUtils.hasHandData node = Z.testbit (node_f node) 1.
Proof.
  unfold CompactTreeUtils.isTerminal, CompactTreeUtils.hasHandData. split.
  - apply (land_pow2_test _ 0). lia.
  - apply (land_pow2_test _ 1). lia.
Qed.

Lemma or_testbit_low f c n :
  0 <= n < 2 ->
  Z.testbit (Int32.or f c) n = Z.testbit f n || Z.testbit c n.
Proof.
  intros Hn. unfold Int32.or. by rewrite Z.lor_spec, !wrap_testbit_low.
Qed.

Lemma and_not_testbit_low f c n :
  0 <= n < 2 ->
  Z.testbit (Int32.and f (Int32.not c)) n = Z.testbit f n && negb (Z.testbit c n).
Proof.
  intros Hn. unfold Int32.and, Int32.not.
  by rewrite Z.land_spec, !wrap_testbit_low, Z.lnot_spec, wrap_testbit_low by lia.
Qed.

(** X9: [setTerminal] and [setHandData] set the flag they name to the value
    given, whatever [f] held, and leave the other flag and every other field
    of the node as they were. *)
Theorem X9_flags_independent node value :
  CompactTreeUtils.isTerminal (setTerminal node value) = value
  /\ CompactTreeUtils.hasHandData (setTerminal node value)
     = CompactTreeUtils.hasHandData node
  /\ CompactTreeUtils.hasHandData (setHandData node value) = value
  /\ CompactTreeUtils.isTerminal (setHandData node value)
     = CompactTreeUtils.isTerminal node
  /\ withFlags (setTerminal node value) 0 = withFlags node 0
  /\ withFlags (setHandData node value) 0 = withFlags node 0.
Proof.
  rewrite !(proj1 (flags_testbit _)), !(proj2 (flags_testbit _)).
  unfold setTerminal, setHandData.
  destruct value; cbn [withFlags node_f];
    rewrite ?or_testbit_low, ?and_not_testbit_low by lia;
    cbn [Z.testbit Z.odd Pos.testbit]; rewrite ?orb_true_r, ?orb_false_r,
      ?andb_true_r, ?andb_false_r; repeat split; reflexivity.
Qed.

(** The flag word [compactNode] produces. *)
Lemma compactNode_flags full :
  node_f (compactNode full)
  = (if tn_isTerminal full then 1 else 0) + (if tn_hasHandData full then 2 else 0).
Proof.
  unfold compactNode, setTerminal, setHandData.
  by destruct (tn_isTerminal full), (tn_hasHandData full).
Qed.

Lemma expand_compact_action action :
  keptAction action ->
  {| na_type := act_t (compactAction action);
     na_amount := JS.opt_or (act_amt (compactAction action)) 0;
     na_node := if JS.truthy (act_n (compactAction action))
                then act_n (compactAction action) else None |}
  = action.
Proof.
  intros [Hamount Hnode]. destruct action as [t a n]. cbn in *.
  assert ((if JS.truthy n then n else None) = n) as Hn.
  { destruct n as [s|]; [|done]. cbn. case_bool_decide; [done|].
    exfalso. apply Hnode. f_equal. by destruct (decide (s = EmptyString)). }
  rewrite Hn, Hn. f_equal.
  case_decide; cbn; unfold JS.num_or; [case_decide; lia|lia].
Qed.

Lemma compact_expand_action action :
  tidyAction action ->
  compactAction
    {| na_type := act_t action;
       na_amount := JS.opt_or (act_amt action) 0;
       na_node := if JS.truthy (act_n action) then act_n action else None |}
  = action.
Proof.
  intros [Hamount Hnode]. destruct action as [t a n]. unfold compactAction. cbn in *.
  assert ((if JS.truthy n then n else None) = n) as Hn.
  { destruct n as [s|]; [|done]. cbn. case_bool_decide; [done|].
    exfalso. apply Hnode. f_equal. by destruct (decide (s = EmptyString)). }
  rewrite Hn, Hn. f_equal.
  destruct a as [v|]; cbn.
  - pose proof (Hamount v eq_refl). unfold JS.num_or.
    rewrite (decide_False (P := v = 0)) by lia. by rewrite decide_True by lia.
  - by rewrite decide_False by lia.
Qed.

(** X10: expanding a compact node and compacting it again gives the node
    back, when its flag word is 0 to 3 and its actions are as [compactNode]
    writes them (a present amount is positive, a present target is not
    empty). *)
Theorem X10_compact_expand_round_trip compact :
  0 <= node_f compact <= 3 ->
  Forall tidyAction (node_a compact) ->
  compactNode (expandNode compact) = compact.
Proof.
  intros Hflags Htidy.
  assert (node_f (compactNode (expandNode compact)) = node_f compact) as Hf.
  { rewrite compactNode_flags. cbn [expandNode tn_isTerminal tn_hasHandData].
    rewrite (proj1 (flags_testbit _)), (proj2 (flags_testbit _)).
    assert (node_f compact = 0 \/ node_f compact = 1 \/ node_f compact = 2
            \/ node_f compact = 3) as Hcases by lia.
    repeat destruct Hcases as [->|Hcases]; try rewrite Hcases; reflexivity. }
  assert (node_a (compactNode (expandNode compact)) = node_a compact) as Ha.
  { unfold compactNode, setTerminal, setHandData.
    assert (compactAction <$> tn_actions (expandNode compact) = node_a compact) as H.
    { cbn [expandNode tn_actions]. rewrite <- list_fmap_compose.
      induction Htidy as [|action rest Haction _ IH]; [done|].
      cbn [fmap list_fmap compose]. f_equal; [|exact IH].
      by apply compact_expand_action. }
    by destruct (tn_isTerminal _), (tn_hasHandData _); cbn. }
  destruct compact as [i p pl s a d f]. cbn in Hf, Ha.
  unfold compactNode, setTerminal, setHandData in *.
  destruct (tn_isTerminal _), (tn_hasHandData _); cbn in *; by rewrite Hf, Ha.
Qed.

Lemma X10_compact_expand_round_trip_witness :
  compactNode (expandNode brokenNode) = brokenNode.
Proof.
  apply X10_compact_expand_round_trip.
  - simpl. lia.
  - unfold tidyAction.
    repeat (apply Forall_cons; split); [..|by apply Forall_nil];
      simpl; (split; [intros v [= <-]; lia | done]) || (split; [done|done]).
Defined.

Lemma expand_compact_actions actions :
  Forall keptAction actions ->
  (fun a => {| na_type := act_t a;
               na_amount := JS.opt_or (act_amt a) 0;
               na_node := if JS.truthy (act_n a) then act_n a else None |})
    <$> (compactAction <$> actions)
  = actions.
Proof.
  induction 1 as [|action rest Haction _ IH]; [done|].
  cbn [fmap list_fmap]. f_equal; [by apply expand_compact_action|exact IH].
Qed.

(** The targets of the compact actions are the targets of the legacy ones. *)
Lemma children_compact actions :
  Forall keptAction actions ->
  (fun a => JS.get (act_n a))
    <$> List.filter (fun a => JS.truthy (act_n a)) (compactAction <$> actions)
  = omap na_node actions.
Proof.
  induction 1 as [|action rest [_ Hnode] _ IH]; [done|].
  cbn [fmap list_fmap List.filter omap list_omap].
  destruct action as [t a [n|]]; cbn [compactAction act_n na_node] in *.
  - assert (JS.truthy (Some n) = true) as Ht
      by (apply bool_decide_eq_true_2; intros ->; by apply Hnode).
    rewrite !Ht. cbn [fmap list_fmap]. rewrite IH. f_equal.
    unfold compactAction. cbn [act_n na_node]. by rewrite Ht.
  - exact IH.
Qed.

(** X11: compacting a legacy node and expanding it again keeps its id,
    parent, player, street, depth, both flags and, when no action has a
    negative amount or an empty target, its actions; the sequence and the
    path come back empty, and the children are the targets of the
    actions. *)
Theorem X11_expand_compact_round_trip full :
  Forall keptAction (tn_actions full) ->
  expandNode (compactNode full)
  = {| tn_id := tn_id full;
       tn_parentId := tn_parentId full;
       tn_player := tn_player full;
       tn_street := tn_street full;
       tn_sequence := [];
       tn_actions := tn_actions full;
       tn_children := omap na_node (tn_actions full);
       tn_depth := tn_depth full;
       tn_path := EmptyString;
       tn_isTerminal := tn_isTerminal full;
       tn_hasHandData := tn_hasHandData full |}.
Proof.
  intros Hkept.
  assert (forall c, node_a c = compactAction <$> tn_actions full ->
            tn_actions (expandNode c) = tn_actions full
            /\ tn_children (expandNode c) = omap na_node (tn_actions full))
    as Hactions.
  { intros c Hc. cbn [expandNode tn_actions tn_children]. rewrite Hc.
    split; [by apply expand_compact_actions|by apply children_compact]. }
  destruct (Hactions (compactNode full)) as [Ha Hc].
  { unfold compactNode, setTerminal, setHandData.
    by destruct (tn_isTerminal full), (tn_hasHandData full). }
  assert (tn_isTerminal (expandNode (compactNode full)) = tn_isTerminal full
          /\ tn_hasHandData (expandNode (compactNode full)) = tn_hasHandData full)
    as [Ht Hh].
  { cbn [expandNode tn_isTerminal tn_hasHandData].
    rewrite (proj1 (flags_testbit _)), (proj2 (flags_testbit _)), compactNode_flags.
    by destruct (tn_isTerminal full), (tn_hasHandData full). }
  cbn [expandNode tn_actions tn_children tn_isTerminal tn_hasHandData]
    in Ha, Hc, Ht, Hh.
  unfold expandNode at 1. rewrite Ha, Hc, Ht, Hh.
  unfold compactNode, setTerminal, setHandData.
  by destruct (tn_isTerminal full), (tn_hasHandData full).
Qed.

Lemma X11_expand_compact_round_trip_witness :
  tn_children (expandNode (compactNode legacyNode)) = ["n1"]
  /\ tn_actions (expandNode (compactNode legacyNode)) = tn_actions legacyNode
  /\ tn_path (expandNode (compactNode legacyNode)) = EmptyString.
Proof.
  rewrite (X11_expand_compact_round_trip legacyNode).
  - repeat split.
  - unfold keptAction.
    repeat (apply Forall_cons; split); [..|by apply Forall_nil];
      simpl; (split; [lia|done]).
Defined.

Lemma convertNode_compactNode node : convertNode node = compactNode node.
Proof.
  unfold convertNode, compactNode, setTerminal, setHandData.
  by destruct (tn_isTerminal node), (tn_hasHandData node).
Qed.

Lemma foldl_convertEntry entries : forall done count,
  foldl convertEntry (done, count) entries
  = (done ++ ((fun entry => (entry.1, compactNode entry.2)) <$> entries),
     count + Z.of_nat (length (List.filter (fun entry => tn_isTerminal entry.2)
                                           entries))).
Proof.
  induction entries as [|[nodeId node] entries IH]; intros done count;
    cbn [foldl fmap list_fmap List.filter].
  - rewrite app_nil_r. f_equal. cbn. lia.
  - cbn [convertEntry]. rewrite IH, convertNode_compactNode, <- app_assoc.
    cbn [fst snd app]. f_equal.
    destruct (tn_isTerminal node); cbn [length]; lia.
Qed.

Lemma terminal_count_compact (entries : list (string * TreeNode)) :
  length (List.filter (fun entry => CompactTreeUtils.isTerminal entry.2)
            ((fun entry => (entry.1, compactNode entry.2)) <$> entries))
  = length (List.filter (fun entry => tn_isTerminal entry.2) entries).
Proof.
  induction entries as [|[nodeId node] entries IH]; [done|].
  cbn [fmap list_fmap List.filter fst snd].
  assert (CompactTreeUtils.isTerminal (compactNode node) = tn_isTerminal node) as ->.
  { rewrite (proj1 (flags_testbit _)), compactNode_flags.
    by destruct (tn_isTerminal node), (tn_hasHandData node). }
  destruct (tn_isTerminal node); cbn [length]; by rewrite IH.
Qed.

(** X12: [convertToCompact] keeps the keys and their order and converts each
    node as [compactNode] does; the root is kept; [totalNodes] is the number
    of entries and [terminalNodes] the number of compact nodes whose terminal
    flag is set. *)
Theorem X12_convertToCompact_agrees now legacy :
  nodes (convertToCompact now legacy).1
  = (fun entry => (entry.1, compactNode entry.2)) <$> lt_nodes legacy
  /\ root (convertToCompact now legacy).1 = lt_root legacy
  /\ meta_totalNodes (convertToCompact now legacy).2
     = Z.of_nat (length (lt_nodes legacy))
  /\ meta_terminalNodes (convertToCompact now legacy).2
     = Z.of_nat (length (List.filter
                           (fun entry => CompactTreeUtils.isTerminal entry.2)
                           (nodes (convertToCompact now legacy).1))).
Proof.
  unfold convertToCompact. rewrite foldl_convertEntry.
  cbn [fst snd nodes root meta_totalNodes meta_terminalNodes app].
  split; [done|]. split; [done|]. split; [by rewrite length_fmap|].
  rewrite terminal_count_compact. lia.
Qed.

Example convertToCompact_legacyTree :
  convertToCompact "2024-01-01T00:00:00.000Z" legacyTree
  = ({| nodes :=
          [ ("n0", {| node_id := "n0"; node_p := None; node_pl := 0; node_s := 0;
                      node_a := [ {| act_t := "F"; act_amt := None; act_n := None |};
                                  {| act_t := "R"; act_amt := Some 6;
                                     act_n := Some "n1" |} ];
                      node_d := 0; node_f := 2 |});
            ("n1", {| node_id := "n1"; node_p := Some "n0"; node_pl := 1;
                      node_s := 0; node_a := []; node_d := 1; node_f := 1 |}) ];
        root := "n0" |},
     {| meta_totalNodes := 2; meta_terminalNodes := 1; meta_maxDepth := 1;
        meta_playerCount := 2; meta_generatedAt := "2024-01-01T00:00:00.000Z";
        meta_version := "2.0.0-compact" |}).
Proof. vm_compute. reflexivity. Qed.

(** ** The navigator's caches *)

(** The trail built so far only ever gets entries in front. *)
Lemma breadcrumbsLoop_acc cache fuel : forall currentNode breadcrumbs,
  breadcrumbsLoop fuel cache currentNode breadcrumbs
  = (fun r => (r.1, r.2 ++ breadcrumbs))
      <$> breadcrumbsLoop fuel cache currentNode [].
Proof.
  induction fuel as [|fuel IH]; intros [cur|] breadcrumbs; cbn [breadcrumbsLoop];
    try done.
  - by destruct (JS.truthy (node_p cur)).
  - destruct (JS.truthy (node_p cur)); [|done].
    destruct (cache !! JS.get (node_p cur)) as [parentNode|]; [|done].
    destruct (List.find _ (node_a parentNode)) as [action|].
    + rewrite IH. rewrite (IH _ [_]).
      destruct (breadcrumbsLoop fuel cache (Some parentNode) []) as [[c t]|];
        cbn; [|done]. by rewrite <- app_assoc.
    + apply IH.
Qed.

(** More fuel does not change what the loop returns. *)
Lemma breadcrumbsLoop_fuel_mono cache fuel : forall currentNode breadcrumbs r,
  breadcrumbsLoop fuel cache currentNode breadcrumbs = Some r ->
  breadcrumbsLoop (S fuel) cache currentNode breadcrumbs = Some r.
Proof.
  induction fuel as [|fuel IH]; intros [cur|] breadcrumbs r;
    cbn [breadcrumbsLoop]; try done.
  - by destruct (JS.truthy (node_p cur)).
  - destruct (JS.truthy (node_p cur)); [|done].
    destruct (cache !! JS.get (node_p cur)) as [parentNode|]; [|done].
    apply IH.
Qed.

Lemma breadcrumbsLoop_fuel_le cache fuel fuel' currentNode breadcrumbs r :
  (fuel <= fuel')%nat ->
  breadcrumbsLoop fuel cache currentNode breadcrumbs = Some r ->
  breadcrumbsLoop fuel' cache currentNode breadcrumbs = Some r.
Proof.
  induction 1 as [|fuel' _ IH]; [done|].
  intros Hrun. by apply breadcrumbsLoop_fuel_mono, IH.
Qed.

Lemma computeBreadcrumbs_fuel_le cache fuel fuel' nodeId breadcrumbs :
  (fuel <= fuel')%nat ->
  computeBreadcrumbs fuel cache nodeId = Some breadcrumbs ->
  computeBreadcrumbs fuel' cache nodeId = Some breadcrumbs.
Proof.
  intros Hle. unfold computeBreadcrumbs.
  destruct (breadcrumbsLoop fuel cache (cache !! nodeId) []) as [r|] eqn:Hrun;
    [|done].
  by rewrite (breadcrumbsLoop_fuel_le _ _ _ _ _ _ Hle Hrun).
Qed.

(** Whatever fuel lets the computation return, it returns the same trail. *)
Lemma computeBreadcrumbs_functional cache fuel1 fuel2 nodeId trail1 trail2 :
  computeBreadcrumbs fuel1 cache nodeId = Some trail1 ->
  computeBreadcrumbs fuel2 cache nodeId = Some trail2 ->
  trail1 = trail2.
Proof.
  intros H1 H2.
  apply (computeBreadcrumbs_fuel_le _ _ (fuel1 `max` fuel2)) in H1; [|lia].
  apply (computeBreadcrumbs_fuel_le _ _ (fuel1 `max` fuel2)) in H2; [|lia].
  congruence.
Qed.

(** X13: asking again gives the same answer and writes nothing: after
    [getBreadcrumbs] or [getNodePath] has answered for a node id, the same
    call on the navigator it left returns the same answer and the same
    navigator, whatever the fuel. *)
Theorem X13_cached_answers_repeat nav nodeId fuel fuel' :
  (forall breadcrumbs nav',
     getBreadcrumbs fuel nav nodeId = Some (breadcrumbs, nav') ->
     getBreadcrumbs fuel' nav' nodeId = Some (breadcrumbs, nav'))
  /\ (forall path nav',
        getNodePath fuel nav nodeId = Some (path, nav') ->
        getNodePath fuel' nav' nodeId = Some (path, nav')).
Proof.
  split.
  - intros breadcrumbs nav'. unfold getBreadcrumbs.
    destruct (breadcrumbCache nav !! nodeId) as [cached|] eqn:Hcached.
    + intros [= <- <-]. by rewrite Hcached.
    + destruct (computeBreadcrumbs fuel (nodeCache nav) nodeId) as [computed|];
        [|done].
      intros [= <- <-]. cbn. by rewrite lookup_insert_eq.
  - intros path nav'. unfold getNodePath.
    destruct (pathCache nav !! nodeId) as [cached|] eqn:Hcached.
    + intros [= <- <-]. by rewrite Hcached.
    + destruct (getBreadcrumbs fuel nav nodeId) as [[breadcrumbs nav1]|]; [|done].
      intros [= <- <-]. cbn. by rewrite lookup_insert_eq.
Qed.

Lemma X13_cached_answers_repeat_witness :
  getBreadcrumbs 0 warmNavigator "n2"
  = Some ([ {| bc_nodeId := "n0"; bc_label := "Start"; bc_player := 0;
               bc_action := "ROOT" |};
            {| bc_nodeId := "n0"; bc_label := "Call"; bc_player := 0;
               bc_action := "C" |};
            {| bc_nodeId := "n1"; bc_label := "Check"; bc_player := 1;
               bc_action := "X" |} ],
          warmNavigator).
Proof.
  apply (proj1 (X13_cached_answers_repeat warmNavigator "n2" 7 0)).
  vm_compute. reflexivity.
Defined.

Lemma getBreadcrumbs_nodeCache fuel nav nodeId breadcrumbs nav' :
  getBreadcrumbs fuel nav nodeId = Some (breadcrumbs, nav') ->
  nodeCache nav' = nodeCache nav /\ pathCache nav' = pathCache nav.
Proof.
  unfold getBreadcrumbs. destruct (breadcrumbCache nav !! nodeId).
  - by intros [= <- <-].
  - destruct (computeBreadcrumbs _ _ _); [|done]. by intros [= <- <-].
Qed.

(** [getBreadcrumbs] keeps a sound cache sound and answers with a computed
    trail. *)
Lemma getBreadcrumbs_computed fuel nav nodeId breadcrumbs nav' :
  cacheSound nav ->
  getBreadcrumbs fuel nav nodeId = Some (breadcrumbs, nav') ->
  cacheSound nav'
  /\ exists fuel0,
       computeBreadcrumbs fuel0 (nodeCache nav) nodeId = Some breadcrumbs.
Proof.
  intros Hsound. unfold getBreadcrumbs.
  destruct (breadcrumbCache nav !! nodeId) as [cached|] eqn:Hcached.
  - intros [= <- <-]. split; [done|]. by apply Hsound.
  - destruct (computeBreadcrumbs fuel (nodeCache nav) nodeId) as [computed|]
      eqn:Hcompute; [|done].
    intros [= <- <-]. split; [|by exists fuel].
    intros nodeId' breadcrumbs'. cbn [breadcrumbCache nodeCache].
    destruct (decide (nodeId = nodeId')) as [<-|Hne].
    + rewrite lookup_insert_eq. intros [= <-]. by exists fuel.
    + rewrite lookup_insert_ne by done. apply Hsound.
Qed.

Lemma navReachableAll_inv t nav :
  navReachableAll t nav ->
  nodeCache nav = buildCache t /\ cacheSound nav /\ pathSound nav.
Proof.
  induction 1 as [|nav fuel nodeId breadcrumbs nav' _ (IHcache & IHsound & IHpath) Hget
                  |nav fuel nodeId path nav' _ (IHcache & IHsound & IHpath) Hget
                  |nav fuel nodeId ib ia result nav' _ (IHcache & IHsound & IHpath) Hget
                  |nav _ (IHcache & IHsound & IHpath)].
  - split; [done|]. split; intros nodeId x Hc; cbn in Hc; by rewrite lookup_empty in Hc.
  - destruct (getBreadcrumbs_nodeCache _ _ _ _ _ Hget) as [Hnc Hpc].
    destruct (getBreadcrumbs_computed _ _ _ _ _ IHsound Hget) as [Hsound' _].
    split; [congruence|]. split; [done|].
    intros nodeId' path. rewrite Hpc, Hnc. apply IHpath.
  - unfold getNodePath in Hget.
    destruct (pathCache nav !! nodeId) as [cached|] eqn:Hcached.
    { injection Hget as <- <-. done. }
    destruct (getBreadcrumbs fuel nav nodeId) as [[breadcrumbs nav1]|] eqn:Hbc;
      [|done].
    injection Hget as <- <-.
    destruct (getBreadcrumbs_nodeCache _ _ _ _ _ Hbc) as [Hnc Hpc].
    destruct (getBreadcrumbs_computed _ _ _ _ _ IHsound Hbc) as [Hsound' [fuel0 Hf0]].
    cbn [nodeCache]. split; [congruence|]. split; [exact Hsound'|].
    intros nodeId' path'. cbn [pathCache nodeCache].
    destruct (decide (nodeId = nodeId')) as [<-|Hne].
    + rewrite lookup_insert_eq. intros [= <-].
      exists fuel0, breadcrumbs. by rewrite Hnc.
    + rewrite lookup_insert_ne, Hpc, Hnc by done. apply IHpath.
  - unfold getNavigationPath in Hget.
    destruct (nodeCache nav !! nodeId) as [node|]; [|by injection Hget as <- <-].
    destruct ib.
    + destruct (getBreadcrumbs fuel nav nodeId) as [[breadcrumbs nav1]|] eqn:Hbc;
        [|done].
      cbn in Hget. injection Hget as <- <-.
      destruct (getBreadcrumbs_nodeCache _ _ _ _ _ Hbc) as [Hnc Hpc].
      destruct (getBreadcrumbs_computed _ _ _ _ _ IHsound Hbc) as [Hsound' _].
      split; [congruence|]. split; [done|].
      intros nodeId' path. rewrite Hpc, Hnc. apply IHpath.
    + cbn in Hget. by injection Hget as <- <-.
  - split; [done|]. split; intros nodeId x Hc; cbn in Hc; by rewrite lookup_empty in Hc.
Qed.

(** What any reachable navigator answers is what the index alone gives. *)
Lemma reachable_answers t nav :
  navReachableAll t nav ->
  (forall fuel nodeId breadcrumbs nav',
     getBreadcrumbs fuel nav nodeId = Some (breadcrumbs, nav') ->
     exists fuel0, computeBreadcrumbs fuel0 (buildCache t) nodeId = Some breadcrumbs)
  /\ (forall fuel nodeId path nav',
        getNodePath fuel nav nodeId = Some (path, nav') ->
        exists fuel0 breadcrumbs,
          computeBreadcrumbs fuel0 (buildCache t) nodeId = Some breadcrumbs
          /\ path = pathOfBreadcrumbs breadcrumbs).
Proof.
  intros Hreach. destruct (navReachableAll_inv t nav Hreach) as (Hcache & Hsound & Hpath).
  split.
  - intros fuel nodeId breadcrumbs nav' Hget. rewrite <- Hcache.
    by destruct (getBreadcrumbs_computed _ _ _ _ _ Hsound Hget).
  - intros fuel nodeId path nav'. unfold getNodePath.
    destruct (pathCache nav !! nodeId) as [cached|] eqn:Hcached.
    + intros [= <- <-]. rewrite <- Hcache. by apply Hpath.
    + destruct (getBreadcrumbs fuel nav nodeId) as [[breadcrumbs nav1]|] eqn:Hbc;
        [|done].
      intros [= <- <-].
      destruct (getBreadcrumbs_computed _ _ _ _ _ Hsound Hbc) as [_ [fuel0 Hf0]].
      exists fuel0, breadcrumbs. by rewrite <- Hcache.
Qed.

(** X14: the two caches never change an answer.  Two navigators of the same
    tree, whatever calls each has served, cleared or not, give the same trail
    and the same path for a node id whenever both answer. *)
Theorem X14_caches_are_transparent t nav1 nav2 nodeId fuel1 fuel2 :
  navReachableAll t nav1 ->
  navReachableAll t nav2 ->
  (forall trail1 trail2 nav1' nav2',
     getBreadcrumbs fuel1 nav1 nodeId = Some (trail1, nav1') ->
     getBreadcrumbs fuel2 nav2 nodeId = Some (trail2, nav2') ->
     trail1 = trail2)
  /\ (forall path1 path2 nav1' nav2',
        getNodePath fuel1 nav1 nodeId = Some (path1, nav1') ->
        getNodePath fuel2 nav2 nodeId = Some (path2, nav2') ->
        path1 = path2).
Proof.
  intros Hreach1 Hreach2.
  destruct (reachable_answers t nav1 Hreach1) as [Hbc1 Hpath1].
  destruct (reachable_answers t nav2 Hreach2) as [Hbc2 Hpath2].
  split.
  - intros trail1 trail2 nav1' nav2' H1 H2.
    destruct (Hbc1 _ _ _ _ H1) as [f1 Hf1]. destruct (Hbc2 _ _ _ _ H2) as [f2 Hf2].
    by eapply computeBreadcrumbs_functional.
  - intros path1 path2 nav1' nav2' H1 H2.
    destruct (Hpath1 _ _ _ _ H1) as (f1 & t1 & Hf1 & ->).
    destruct (Hpath2 _ _ _ _ H2) as (f2 & t2 & Hf2 & ->).
    f_equal. by eapply computeBreadcrumbs_functional.
Qed.

Lemma navReachable_all t nav : navReachable t nav -> navReachableAll t nav.
Proof.
  induction 1 as [|nav fuel nodeId breadcrumbs nav' _ IH Hget|nav _ IH].
  - constructor.
  - by eapply reachAll_getBreadcrumbs.
  - by constructor.
Qed.

Lemma X14_caches_are_transparent_witness :
  navReachableAll callTree warmNavigator
  /\ navReachableAll callTree (constructor callTree)
  /\ (forall path1 path2 nav1' nav2',
        getNodePath 0 warmNavigator "n2" = Some (path1, nav1') ->
        getNodePath 9 (constructor callTree) "n2" = Some (path2, nav2') ->
        path1 = path2).
Proof.
  assert (navReachableAll callTree warmNavigator) as Hwarm
    by apply navReachable_all, warmNavigator_reachable.
  assert (navReachableAll callTree (constructor callTree)) as Hnew by constructor.
  split; [exact Hwarm|]. split; [exact Hnew|].
  exact (proj2 (X14_caches_are_transparent callTree warmNavigator
                  (constructor callTree) "n2" 0%nat 9%nat Hwarm Hnew)).
Defined.

Example getNodePath_callTree :
  fst <$> getNodePath 9 (constructor callTree) "n2" = Some "Call â†’ Check"
  /\ fst <$> getNodePath 9 (constructor callTree) "n0" = Some "Root"
  /\ fst <$> getNodePath 9 (constructor callTree) "ghost" = Some "Root".
Proof. vm_compute. auto. Qed.

(** ** Trails along the parent chain *)

(** X15: the trail of a node whose parent is indexed is the trail of the
    parent followed by the entry of the step between them (no entry when the
    parent has no action that targets the node); one more round of the loop
    is all it costs. *)
Theorem X15_child_trail_extends_parent cache fuel nodeId child parent :
  cache !! nodeId = Some child ->
  JS.truthy (node_p child) = true ->
  cache !! JS.get (node_p child) = Some parent ->
  computeBreadcrumbs (S fuel) cache nodeId
  = (fun trail => trail ++ stepEntries parent child)
      <$> computeBreadcrumbs fuel cache (JS.get (node_p child)).
Proof.
  intros Hchild Htruthy Hparent. unfold computeBreadcrumbs.
  rewrite Hchild, Hparent. cbn [breadcrumbsLoop]. rewrite Htruthy, Hparent.
  unfold stepEntries.
  destruct (List.find _ (node_a parent)) as [action|].
  - rewrite breadcrumbsLoop_acc.
    destruct (breadcrumbsLoop fuel cache (Some parent) []) as [[[last|] trail]|];
      cbn; [|done|done].
    by destruct (JS.truthy (node_p last)).
  - destruct (breadcrumbsLoop fuel cache (Some parent) []) as [[[last|] trail]|];
      cbn; [|by rewrite app_nil_r|done].
    destruct (JS.truthy (node_p last)); cbn; by rewrite app_nil_r.
Qed.

Lemma X15_child_trail_extends_parent_witness :
  computeBreadcrumbs 2 (buildCache callTree) "n2"
  = (fun trail =>
       trail ++ [ {| bc_nodeId := "n1"; bc_label := "Check"; bc_player := 1;
                     bc_action := "X" |} ])
      <$> computeBreadcrumbs 1 (buildCache callTree) "n1".
Proof.
  apply (X15_child_trail_extends_parent (buildCache callTree) 1 "n2"
           {| node_id := "n2"; node_p := Some "n1"; node_pl := 0; node_s := 1;
              node_a := []; node_d := 2; node_f := 1 |}
           {| node_id := "n1"; node_p := Some "n0"; node_pl := 1; node_s := 0;
              node_a := [ {| act_t := "X"; act_amt := None; act_n := Some "n2" |} ];
              node_d := 1; node_f := 0 |});
    vm_compute; reflexivity.
Defined.

(** With depths that grow along the parent links, the loop started at an
    indexed node stops within as many rounds as the node is deep (one more
    lets it see a parent that is not indexed), at an indexed node whose parent
    is absent or not indexed, and adds at most one entry per level. *)
Lemma breadcrumbsLoop_depth cache :
  parentsShallower cache ->
  forall fuel key node,
    cache !! key = Some node ->
    (Z.to_nat (node_d node) < fuel)%nat ->
    exists last trail,
      breadcrumbsLoop fuel cache (Some node) [] = Some (Some last, trail)
      /\ (length trail <= Z.to_nat (node_d node))%nat
      /\ (exists key', cache !! key' = Some last)
      /\ (JS.truthy (node_p last) = true -> cache !! JS.get (node_p last) = None).
Proof.
  intros Hdepth. induction fuel as [|fuel IH]; intros key node Hnode Hfuel; [lia|].
  cbn [breadcrumbsLoop].
  destruct (JS.truthy (node_p node)) eqn:Htruthy.
  - destruct (cache !! JS.get (node_p node)) as [parentNode|] eqn:Hparent.
    + pose proof (Hdepth key node parentNode Hnode Htruthy Hparent) as Hd.
      destruct (IH _ parentNode Hparent) as (last & trail & Hrun & Hlen & Hlast & Hend);
        [lia|].
      destruct (List.find _ (node_a parentNode)) as [action|].
      * rewrite breadcrumbsLoop_acc, Hrun. cbn.
        exists last, (trail ++ [ {| bc_nodeId := JS.get (node_p node);
                                    bc_label := formatActionLabel (act_t action)
                                                  (JS.opt_or (act_amt action) 0);
                                    bc_player := node_pl parentNode;
                                    bc_action := act_t action |} ]).
        repeat split; [|done|done]. rewrite length_app. cbn. lia.
      * exists last, trail. repeat split; [done| |done|done]. lia.
    + exists node, []. repeat split; [cbn; lia|by exists key|done].
  - exists node, []. repeat split; [cbn; lia|by exists key|congruence].
Qed.

(** X16: in an index where every indexed parent is less deep than its child
    and no depth of a parent is negative, the trail of an indexed node is
    found within depth + 1 rounds of the loop and has at most depth + 1
    entries. *)
Theorem X16_trail_within_depth cache nodeId node :
  parentsShallower cache ->
  cache !! nodeId = Some node ->
  exists trail,
    computeBreadcrumbs (S (Z.to_nat (node_d node))) cache nodeId = Some trail
    /\ (length trail <= S (Z.to_nat (node_d node)))%nat.
Proof.
  intros Hdepth Hnode. unfold computeBreadcrumbs. rewrite Hnode.
  destruct (breadcrumbsLoop_depth cache Hdepth (S (Z.to_nat (node_d node)))
              nodeId node Hnode) as (last & trail & -> & Hlen & _ & _); [lia|].
  cbn. eexists. split; [done|].
  destruct (JS.truthy (node_p last)); cbn; lia.
Qed.

(** What the index holds is an entry of the tree. *)
Lemma foldl_insert_lookup_in (entries : list (string * CompactTreeNode)) :
  forall (cache : gmap string CompactTreeNode) key node,
    foldl (fun cache entry => <[entry.1 := entry.2]> cache) cache entries !! key
    = Some node ->
    cache !! key = Some node \/ (key, node) ∈ entries.
Proof.
  induction entries as [|[nodeId entry] entries IH]; intros cache key node;
    cbn [foldl]; [auto|].
  intros Hlookup. apply IH in Hlookup as [Hlookup|Hin].
  - cbn [fst snd] in Hlookup.
    destruct (decide (nodeId = key)) as [->|Hne].
    + rewrite lookup_insert_eq in Hlookup. injection Hlookup as ->.
      right. by left.
    + rewrite lookup_insert_ne in Hlookup by done. by left.
  - right. by right.
Qed.

Lemma buildCache_lookup_in tree key node :
  buildCache tree !! key = Some node -> (key, node) ∈ nodes tree.
Proof.
  intros Hlookup. apply foldl_insert_lookup_in in Hlookup as [Hlookup|Hin]; [|done].
  by rewrite lookup_empty in Hlookup.
Qed.

(** A tree that passes validation has no dangling reference. *)
Lemma valid_no_dangling tree nodeId node :
  isValid (validateCompactTree tree) = true ->
  (nodeId, node) ∈ nodes tree ->
  ~ dangling (treeIds tree) (node_p node)
  /\ forall action, action ∈ node_a node -> ~ dangling (treeIds tree) (act_n action).
Proof.
  intros Hvalid Hin. split.
  - intros Hd.
    assert (parentError nodeId node ∈ errors (validateCompactTree tree)) as Herr.
    { rewrite validate_errors.
      apply foldl_checkNode_reports with (nodeId, node); [done|].
      intros errs. by apply checkNode_reports_parent. }
    apply reported_is_invalid in Herr. congruence.
  - intros action Haction Hd.
    apply list_elem_of_lookup in Haction as [index Hindex].
    assert (actionError nodeId index action ∈ errors (validateCompactTree tree))
      as Herr.
    { rewrite validate_errors.
      apply foldl_checkNode_reports with (nodeId, node); [done|].
      intros errs. by apply checkNode_reports_action. }
    apply reported_is_invalid in Herr. congruence.
Qed.

(** X17: in a tree that passes validation and whose depths grow along the
    parent links, the trail of every indexed node begins with the "Start"
    entry of an indexed node without parent, and the steps after it are at
    most as many as the node is deep. *)
Theorem X17_valid_trail_starts_at_a_root tree nodeId node :
  isValid (validateCompactTree tree) = true ->
  parentsShallower (buildCache tree) ->
  buildCache tree !! nodeId = Some node ->
  exists top steps,
    computeBreadcrumbs (S (Z.to_nat (node_d node))) (buildCache tree) nodeId
    = Some (startEntry top :: steps)
    /\ (exists key, buildCache tree !! key = Some top)
    /\ JS.truthy (node_p top) = false
    /\ (length steps <= Z.to_nat (node_d node))%nat.
Proof.
  intros Hvalid Hdepth Hnode. unfold computeBreadcrumbs. rewrite Hnode.
  destruct (breadcrumbsLoop_depth _ Hdepth (S (Z.to_nat (node_d node)))
              nodeId node Hnode) as (top & steps & -> & Hlen & [key Htop] & Hend);
    [lia|].
  assert (JS.truthy (node_p top) = false) as Hparentless.
  { destruct (JS.truthy (node_p top)) eqn:Htruthy; [|done].
    specialize (Hend eq_refl).
    destruct (valid_no_dangling tree key top Hvalid) as [Hparent _];
      [by apply buildCache_lookup_in|].
    exfalso. apply Hparent. split; [done|].
    rewrite <- buildCache_keys, Hend. by intros [? ?]. }
  cbn. rewrite Hparentless. cbn. exists top, steps.
  repeat split; [by exists key|done|done].
Qed.

Lemma callTree_parentsShallower : parentsShallower (buildCache callTree).
Proof.
  intros key node parent Hnode Htruthy Hparent.
  apply buildCache_lookup_in in Hnode. cbn [nodes callTree] in Hnode.
  repeat (apply elem_of_cons in Hnode as [[= -> ->]|Hnode]);
    try (by apply elem_of_nil in Hnode);
    try discriminate Htruthy;
    vm_compute in Hparent; injection Hparent as <-; cbn; lia.
Qed.

Lemma X16_trail_within_depth_witness :
  exists trail,
    computeBreadcrumbs 3 (buildCache callTree) "n2" = Some trail
    /\ (length trail <= 3)%nat.
Proof.
  apply (X16_trail_within_depth (buildCache callTree) "n2"
           {| node_id := "n2"; node_p := Some "n1"; node_pl := 0; node_s := 1;
              node_a := []; node_d := 2; node_f := 1 |}).
  - apply callTree_parentsShallower.
  - vm_compute. reflexivity.
Defined.

Lemma X17_valid_trail_starts_at_a_root_witness :
  exists top steps,
    computeBreadcrumbs 3 (buildCache callTree) "n2" = Some (startEntry top :: steps)
    /\ (exists key, buildCache callTree !! key = Some top)
    /\ JS.truthy (node_p top) = false
    /\ (length steps <= 2)%nat.
Proof.
  apply (X17_valid_trail_starts_at_a_root callTree "n2"
           {| node_id := "n2"; node_p := Some "n1"; node_pl := 0; node_s := 1;
              node_a := []; node_d := 2; node_f := 1 |}).
  - vm_compute. reflexivity.
  - apply callTree_parentsShallower.
  - vm_compute. reflexivity.
Defined.

(** ** Walking the tree *)

(** X18: walking a list of action types is walking its first part and then,
    from where that ends, the rest; a walk that fails in the first part
    fails. *)
Theorem X18_navigateByPath_composes nav types1 types2 : forall startNodeId,
  navigateByPath nav startNodeId (types1 ++ types2)
  = navigateByPath nav startNodeId types1
      ≫= fun middle => navigateByPath nav middle types2.
Proof.
  induction types1 as [|actionType types1 IH]; intros startNodeId; [done|].
  cbn [app navigateByPath].
  destruct (nodeCache nav !! startNodeId) as [node|]; [|done].
  destruct (List.find _ (node_a node)) as [action|]; [|done].
  destruct (negb (JS.truthy (act_n action))); [done|apply IH].
Qed.

(** X19: in a tree that passes validation the walks stay inside the index:
    the root is indexed, every available action of every node targets an
    indexed node, and so does every walk that starts at an indexed node and
    returns an id. *)
Theorem X19_valid_tree_walks_stay_indexed tree :
  isValid (validateCompactTree tree) = true ->
  is_Some (nodeCache (constructor tree) !! root tree)
  /\ (forall nodeId action,
        action ∈ getAvailableActions (constructor tree) nodeId ->
        is_Some (nodeCache (constructor tree) !! nav_targetNode action))
  /\ (forall actionTypes startNodeId nodeId,
        is_Some (nodeCache (constructor tree) !! startNodeId) ->
        navigateByPath (constructor tree) startNodeId actionTypes = Some nodeId ->
        is_Some (nodeCache (constructor tree) !! nodeId)).
Proof.
  intros Hvalid. cbn [constructor nodeCache].
  assert (forall nodeId node action,
            buildCache tree !! nodeId = Some node ->
            action ∈ node_a node ->
            JS.truthy (act_n action) = true ->
            is_Some (buildCache tree !! JS.get (act_n action))) as Htarget.
  { intros nodeId node action Hnode Haction Htruthy.
    apply buildCache_lookup_in in Hnode.
    destruct (valid_no_dangling tree nodeId node Hvalid Hnode) as [_ Hactions].
    apply buildCache_keys.
    destruct (decide (JS.get (act_n action) ∈ treeIds tree)) as [|Hout]; [done|].
    by destruct (Hactions action Haction). }
  split; [by apply valid_root_indexed|]. split.
  - intros nodeId action. unfold getAvailableActions. cbn [nodeCache constructor].
    destruct (buildCache tree !! nodeId) as [node|] eqn:Hnode;
      [|by intros ?%elem_of_nil].
    intros (source & -> & Hsource)%list_elem_of_fmap. cbn [nav_targetNode].
    apply list_elem_of_In, filter_In in Hsource as [Hsource Htruthy].
    apply list_elem_of_In in Hsource. by eapply Htarget.
  - induction actionTypes as [|actionType rest IH]; intros startNodeId nodeId Hstart.
    + by intros [= <-].
    + cbn [navigateByPath nodeCache constructor].
      destruct (buildCache tree !! startNodeId) as [node|] eqn:Hnode; [|done].
      destruct (List.find _ (node_a node)) as [action|] eqn:Hfind; [|done].
      apply find_some in Hfind as [Hin Htest].
      apply andb_prop in Htest as [_ Htruthy]. rewrite Htruthy. cbn [negb].
      apply IH. apply list_elem_of_In in Hin. by eapply Htarget.
Qed.

Lemma X19_valid_tree_walks_stay_indexed_witness :
  is_Some (nodeCache (constructor callTree) !! root callTree)
  /\ (forall nodeId action,
        action ∈ getAvailableActions (constructor callTree) nodeId ->
        is_Some (nodeCache (constructor callTree) !! nav_targetNode action))
  /\ (forall actionTypes startNodeId nodeId,
        is_Some (nodeCache (constructor callTree) !! startNodeId) ->
        navigateByPath (constructor callTree) startNodeId actionTypes = Some nodeId ->
        is_Some (nodeCache (constructor callTree) !! nodeId)).
Proof. apply (X19_valid_tree_walks_stay_indexed callTree). vm_compute. reflexivity. Defined.

(** ** The index *)

Lemma foldl_insert_lookup_last (entries : list (string * CompactTreeNode)) :
  forall (cache : gmap string CompactTreeNode) key node,
    NoDup entries.*1 ->
    (key, node) ∈ entries ->
    foldl (fun cache entry => <[entry.1 := entry.2]> cache) cache entries !! key
    = Some node.
Proof.
  induction entries as [|[nodeId entry] entries IH]; intros cache key node Hnodup Hin;
    [by apply elem_of_nil in Hin|].
  rewrite fmap_cons in Hnodup. apply NoDup_cons in Hnodup as [Hfresh Hnodup].
  cbn [foldl fst snd] in *. apply elem_of_cons in Hin as [[= -> ->]|Hin].
  - destruct (foldl _ (<[nodeId:=entry]> cache) entries !! nodeId) as [found|]
      eqn:Hfound.
    + apply foldl_insert_lookup_in in Hfound as [Hfound|Hlater].
      * by rewrite lookup_insert_eq in Hfound.
      * exfalso. apply Hfresh. apply list_elem_of_fmap. by exists (nodeId, found).
    + assert (is_Some (foldl (fun cache entry => <[entry.1 := entry.2]> cache)
                         (<[nodeId:=entry]> cache) entries !! nodeId)) as [? Hsome].
      { apply foldl_insert_lookup. left. rewrite lookup_insert_eq. by eexists. }
      congruence.
  - by apply IH.
Qed.

Lemma foldl_insert_size (entries : list (string * CompactTreeNode)) :
  forall (cache : gmap string CompactTreeNode),
    NoDup entries.*1 ->
    (forall key, key ∈ entries.*1 -> cache !! key = None) ->
    size (foldl (fun cache entry => <[entry.1 := entry.2]> cache) cache entries)
    = (size cache + length entries)%nat.
Proof.
  induction entries as [|[nodeId entry] entries IH]; intros cache Hnodup Hfresh;
    cbn [foldl length]; [lia|].
  rewrite fmap_cons in Hnodup, Hfresh. apply NoDup_cons in Hnodup as [Hnew Hnodup].
  cbn [fst snd] in *. rewrite IH; [|done|].
  - rewrite map_size_insert_None; [lia|]. apply Hfresh. by left.
  - intros key Hkey. rewrite lookup_insert_ne.
    + apply Hfresh. by right.
    + intros ->. by apply Hnew.
Qed.

(** X20: the index built by the constructor holds the tree's entries and
    nothing else: with the keys of [nodes] distinct, as the keys of an object
    are, a key looks up to a node exactly when the pair is an entry of the
    tree, and the index has as many nodes as the tree has entries. *)
Theorem X20_index_is_the_entries tree :
  NoDup (nodes tree).*1 ->
  (forall key node,
     nodeCache (constructor tree) !! key = Some node <-> (key, node) ∈ nodes tree)
  /\ size (nodeCache (constructor tree)) = length (nodes tree).
Proof.
  intros Hnodup. cbn [constructor nodeCache]. split.
  - intros key node. split; [apply buildCache_lookup_in|].
    by apply foldl_insert_lookup_last.
  - unfold buildCache. rewrite foldl_insert_size; [by rewrite map_size_empty|done|].
    intros key _. apply lookup_empty.
Qed.

Lemma X20_index_is_the_entries_witness :
  (forall key node,
     nodeCache (constructor callTree) !! key = Some node
     <-> (key, node) ∈ nodes callTree)
  /\ size (nodeCache (constructor callTree)) = length (nodes callTree).
Proof.
  apply (X20_index_is_the_entries callTree).
  cbn. repeat (apply NoDup_cons; split; [by (intros Hin; repeat (apply elem_of_cons in Hin as [Hin|Hin]; [discriminate Hin|]); by apply elem_of_nil in Hin)|]).
  apply NoDup_nil. done.
Defined.

(** ** Amounts in big blinds *)

(** The quotient of two positive integers below 2^53 is scaled by a power of
    two, [2 ^ (- expo)], into [[2^52, 2^53)] before it is rounded. *)
Lemma div_scaled a b :
  0 < a < 2 ^ 53 -> 0 < b < 2 ^ 53 ->
  Double.expo (Double.div a b) <= 0
  /\ 2 ^ 52 * b <= a * 2 ^ (- Double.expo (Double.div a b)) < 2 ^ 53 * b.
Proof.
  intros Ha Hb.
  pose proof (Z.log2_spec a ltac:(lia)) as Hla.
  pose proof (Z.log2_spec b ltac:(lia)) as Hlb.
  assert (0 <= Z.log2 a <= 52) as Hla52
    by (split; [apply Z.log2_nonneg|apply Z.lt_succ_r, Z.log2_lt_pow2; lia]).
  assert (0 <= Z.log2 b <= 52) as Hlb52
    by (split; [apply Z.log2_nonneg|apply Z.lt_succ_r, Z.log2_lt_pow2; lia]).
  rewrite Z.pow_succ_r in Hla, Hlb by lia.
  unfold Double.div. cbn [Double.expo].
  set (la := Z.log2 a) in *. set (lb := Z.log2 b) in *.
  assert (0 < 2 ^ la) by (apply Z.pow_pos_nonneg; lia).
  assert (0 < 2 ^ lb) by (apply Z.pow_pos_nonneg; lia).
  destruct (decide (lb <= la)) as [Hge|Hlt].
  - (* the dividend has at least as many bits *)
    rewrite (Z.max_r 0 (la - lb)), (Z.max_l 0 (- (la - lb))) by lia.
    change (2 ^ 0) with 1. rewrite Z.mul_1_r.
    assert (2 ^ la = 2 ^ lb * 2 ^ (la - lb)) as Hsplit.
    { rewrite <- Z.pow_add_r by lia. f_equal. lia. }
    assert (0 < 2 ^ (la - lb)) by (apply Z.pow_pos_nonneg; lia).
    case_decide as Hcmp.
    + assert (2 ^ 52 = 2 ^ (la - lb) * 2 ^ (- (la - lb - 52))) as H52.
      { rewrite <- Z.pow_add_r by lia. f_equal. lia. }
      assert (0 < 2 ^ (- (la - lb - 52))) by (apply Z.pow_pos_nonneg; lia).
      split; [lia|]. change (2 ^ 53) with (2 * 2 ^ 52). rewrite H52.
      set (G := 2 ^ (la - lb)) in *. set (D := 2 ^ (- (la - lb - 52))) in *.
      set (B := 2 ^ lb) in *. nia.
    + assert (2 ^ 52 = 2 ^ (la - lb) * 2 ^ (52 - (la - lb))) as H52.
      { rewrite <- Z.pow_add_r by lia. f_equal. lia. }
      assert (2 ^ (- (la - lb - 1 - 52)) = 2 * 2 ^ (52 - (la - lb))) as HD.
      { rewrite <- Z.pow_succ_r by lia. f_equal. lia. }
      assert (0 < 2 ^ (52 - (la - lb))) by (apply Z.pow_pos_nonneg; lia).
      split; [lia|]. rewrite HD. change (2 ^ 53) with (2 * 2 ^ 52). rewrite H52.
      set (G := 2 ^ (la - lb)) in *. set (D := 2 ^ (52 - (la - lb))) in *.
      set (B := 2 ^ lb) in *. nia.
  - (* the divisor has more bits *)
    rewrite (Z.max_l 0 (la - lb)), (Z.max_r 0 (- (la - lb))) by lia.
    change (2 ^ 0) with 1. rewrite Z.mul_1_r.
    assert (2 ^ lb = 2 ^ la * 2 ^ (- (la - lb))) as Hsplit.
    { rewrite <- Z.pow_add_r by lia. f_equal. lia. }
    assert (0 < 2 ^ (- (la - lb))) by (apply Z.pow_pos_nonneg; lia).
    case_decide as Hcmp.
    + assert (2 ^ (- (la - lb - 52)) = 2 ^ 52 * 2 ^ (- (la - lb))) as HD.
      { rewrite <- Z.pow_add_r by lia. f_equal. lia. }
      split; [lia|]. rewrite HD. change (2 ^ 53) with (2 * 2 ^ 52).
      set (G := 2 ^ (- (la - lb))) in *. set (A := 2 ^ la) in *. nia.
    + assert (2 ^ (- (la - lb - 1 - 52)) = 2 * 2 ^ 52 * 2 ^ (- (la - lb))) as HD.
      { change (2 * 2 ^ 52) with (2 ^ 53). rewrite <- Z.pow_add_r by lia.
        f_equal. lia. }
      split; [lia|]. rewrite HD. change (2 ^ 53) with (2 * 2 ^ 52).
      set (G := 2 ^ (- (la - lb))) in *. set (A := 2 ^ la) in *. nia.
Qed.

(** The mantissa is the scaled quotient, rounded. *)
Lemma div_mant_scaled a b :
  0 < a < 2 ^ 53 -> 0 < b < 2 ^ 53 ->
  Double.mant (Double.div a b)
  = Double.round_half_even (a * 2 ^ (- Double.expo (Double.div a b))) b.
Proof.
  intros Ha Hb. destruct (div_scaled a b Ha Hb) as [He _].
  rewrite div_mant.
  rewrite (Z.max_r 0 (- Double.expo (Double.div a b))),
          (Z.max_l 0 (Double.expo (Double.div a b))) by lia.
  change (2 ^ 0) with 1. by rewrite Z.mul_1_r.
Qed.

(** A multiple divides exactly, to a whole number. *)
Lemma div_multiple k b :
  0 < k -> 0 < b -> k * b < 2 ^ 53 ->
  Number.isInteger (Double.div (k * b) b) = true
  /\ Number.integer (Double.div (k * b) b) = k.
Proof.
  intros Hk Hb Hkb.
  assert (0 < k * b < 2 ^ 53) as Ha by nia.
  assert (0 < b < 2 ^ 53) as Hb' by nia.
  destruct (div_scaled (k * b) b Ha Hb') as [He _].
  pose proof (div_mant_scaled (k * b) b Ha Hb') as Hm.
  set (x := Double.div (k * b) b) in *.
  assert (0 < 2 ^ (- Double.expo x)) as HD by (apply Z.pow_pos_nonneg; lia).
  replace (k * b * 2 ^ (- Double.expo x)) with (k * 2 ^ (- Double.expo x) * b)
    in Hm by lia.
  rewrite round_half_even_exact in Hm by lia.
  unfold Number.isInteger, Number.integer. rewrite Hm. split.
  - rewrite Z.mod_mul by lia. rewrite (bool_decide_eq_true_2 (0 = 0)) by done.
    apply orb_true_r.
  - case_decide as Hexpo.
    + replace (Double.expo x) with 0 by lia. cbn. lia.
    + rewrite Z.div_mul by lia. done.
Qed.

(** What is not a multiple does not round to a whole number. *)
Lemma div_not_multiple a b :
  0 < a < 2 ^ 53 -> 0 < b < 2 ^ 53 ->
  a mod b <> 0 ->
  Number.isInteger (Double.div a b) = false.
Proof.
  intros Ha Hb Hrem.
  destruct (div_scaled a b Ha Hb) as [He Hscaled].
  pose proof (div_mant_scaled a b Ha Hb) as Hm.
  set (x := Double.div a b) in *.
  assert (0 < 2 ^ (- Double.expo x)) as HD by (apply Z.pow_pos_nonneg; lia).
  pose proof (round_half_even_bound (a * 2 ^ (- Double.expo x)) b ltac:(lia)) as Hr.
  rewrite <- Hm in Hr.
  assert (forall j, Double.mant x = j * 2 ^ (- Double.expo x) -> False) as Hwhole.
  { intros j Hj. rewrite Hj in Hr.
    set (D := 2 ^ (- Double.expo x)) in *.
    assert (j * b <> a) as Hne.
    { intros <-. apply Hrem. by rewrite Z.mod_mul by lia. }
    change (2 ^ 53) with (2 * 2 ^ 52) in *.
    assert (b < 2 * D) by nia.
    assert (j * b - a <= -1 \/ 1 <= j * b - a) as [Hlow|Hhigh] by lia; nia. }
  unfold Number.isInteger. apply orb_false_iff. split; apply bool_decide_eq_false.
  - intros Hexpo. apply (Hwhole (Double.mant x)).
    replace (Double.expo x) with 0 by lia. cbn. lia.
  - intros Hmod. apply (Hwhole (Double.mant x / 2 ^ (- Double.expo x))).
    pose proof (Z.div_mod (Double.mant x) (2 ^ (- Double.expo x)) ltac:(lia)). lia.
Qed.

(** The tenths [toFixed(1)] prints for a quotient are the nearest to it; below
    2^48 the rounding of the division does not show. *)
Lemma nearest_tenths a b :
  0 < a < 2 ^ 48 -> 0 < b < 2 ^ 53 ->
  - b <= 2 * (Double.nearest (Double.div a b) 1 * b - 10 * a) <= b.
Proof.
  intros Ha Hb.
  assert (0 < a < 2 ^ 53) as Ha' by lia.
  destruct (div_scaled a b Ha' Hb) as [He Hscaled].
  pose proof (div_mant_scaled a b Ha' Hb) as Hm.
  pose proof (nearest_bounds (Double.div a b) 1) as Hn. cbv zeta in Hn.
  set (x := Double.div a b) in *.
  rewrite (Z.max_l 0 (Double.expo x)), (Z.max_r 0 (- Double.expo x)) in Hn by lia.
  change (2 ^ 0) with 1 in Hn. change (10 ^ Z.of_nat 1) with 10 in Hn.
  assert (0 < 2 ^ (- Double.expo x)) as HD by (apply Z.pow_pos_nonneg; lia).
  pose proof (round_half_even_bound (a * 2 ^ (- Double.expo x)) b ltac:(lia)) as Hr.
  rewrite <- Hm in Hr.
  set (D := 2 ^ (- Double.expo x)) in *. set (m := Double.mant x) in *.
  set (n := Double.nearest x 1) in *.
  change (2 ^ 48) with 281474976710656 in *.
  change (2 ^ 52) with 4503599627370496 in *.
  change (2 ^ 53) with 9007199254740992 in *.
  assert (16 * b < D) by nia.
  assert (2 * (n * b - 10 * a) * D <= b * D + 10 * b) by nia.
  assert (- (b * D) - 10 * b < 2 * (n * b - 10 * a) * D) by nia.
  split.
  - assert (- b - 1 < 2 * (n * b - 10 * a)) by nia. lia.
  - assert (2 * (n * b - 10 * a) < b + 1) by nia. lia.
Qed.

Lemma pretty_Z_neg k : 0 < k -> pretty (- k) = "-" +:+ pretty k.
Proof. intros Hk. by destruct k. Qed.

(** A whole number of big blinds prints without decimals. *)
Lemma formatBB_multiple k bbValue :
  0 < bbValue -> - 2 ^ 53 < k * bbValue < 2 ^ 53 ->
  formatBB (k * bbValue) bbValue = pretty k +:+ "BB".
Proof.
  intros Hb Hrange. unfold formatBB.
  rewrite !bool_decide_eq_false_2 by lia. cbn [orb].
  destruct (decide (k = 0)) as [->|Hk].
  { by rewrite decide_True by lia. }
  rewrite decide_False by nia.
  assert (Z.abs (k * bbValue) = Z.abs k * bbValue) as -> by nia.
  destruct (div_multiple (Z.abs k) bbValue) as [-> ->]; [lia|lia|nia|].
  case_decide as Hsign.
  - assert (k < 0) as Hneg by nia.
    replace k with (- Z.abs k) at 2 by lia.
    rewrite pretty_Z_neg by lia. reflexivity.
  - assert (0 < k) as Hpos by nia. by rewrite Z.abs_eq by lia.
Qed.

(** X21: [formatBB] prints whole numbers of big blinds without decimals: with
    a positive big blind, an amount that is [k] times the big blind (both
    below 2^53 in absolute value, [k] of either sign or zero) prints as [k]
    followed by "BB"; with a big blind that is zero or negative every amount
    prints as "N/A BB". *)
Theorem X21_formatBB_whole_blinds k bbValue amount :
  (0 < bbValue -> - 2 ^ 53 < k * bbValue < 2 ^ 53 ->
   formatBB (k * bbValue) bbValue = pretty k +:+ "BB")
  /\ (bbValue <= 0 -> formatBB amount bbValue = "N/A BB").
Proof.
  split; [apply formatBB_multiple|].
  intros Hb. unfold formatBB.
  rewrite (bool_decide_eq_true_2 (bbValue <= 0)) by done.
  by rewrite orb_true_r.
Qed.

Lemma X21_formatBB_whole_blinds_witness :
  formatBB 1200 100 = "12BB" /\ formatBB (-300) 100 = "-3BB"
  /\ formatBB 1200 0 = "N/A BB".
Proof.
  split; [|split].
  - apply (proj1 (X21_formatBB_whole_blinds 12 100 0)); [lia|cbn; lia].
  - apply (proj1 (X21_formatBB_whole_blinds (-3) 100 0)); [lia|cbn; lia].
  - apply (proj2 (X21_formatBB_whole_blinds 0 0 1200)). lia.
Defined.

(** X22: an amount that is not a whole number of big blinds prints with one
    decimal, the tenth of a big blind nearest to the amount: for a positive
    amount below 2^48 and a positive big blind below 2^53 that does not
    divide it, [formatBB] prints [tenths / 10], a point, the last digit of
    [tenths] and "BB", where [tenths] tenths of the big blind are within half
    a tenth of the amount. *)
Theorem X22_formatBB_nearest_tenth amount bbValue :
  0 < amount < 2 ^ 48 ->
  0 < bbValue < 2 ^ 53 ->
  amount mod bbValue <> 0 ->
  exists tenths,
    formatBB amount bbValue
    = (pretty (tenths / 10) +:+ "." +:+ pretty (tenths mod 10)) +:+ "BB"
    /\ - bbValue <= 2 * (tenths * bbValue - 10 * amount) <= bbValue.
Proof.
  intros Ha Hb Hrem. unfold formatBB.
  rewrite !bool_decide_eq_false_2 by lia. cbn [orb].
  rewrite !decide_False by lia. rewrite Z.abs_eq by lia.
  rewrite div_not_multiple by lia.
  exists (Double.nearest (Double.div amount bbValue) 1).
  split; [|by apply nearest_tenths].
  unfold Double.toFixed. change (10 ^ Z.of_nat 1) with 10.
  rewrite pad_digit; [done|]. by apply Z.mod_pos_bound.
Qed.

Lemma X22_formatBB_nearest_tenth_witness :
  exists tenths,
    formatBB 250 100
    = (pretty (tenths / 10) +:+ "." +:+ pretty (tenths mod 10)) +:+ "BB"
    /\ - 100 <= 2 * (tenths * 100 - 10 * 250) <= 100.
Proof. apply (X22_formatBB_nearest_tenth 250 100); [lia|lia|done]. Defined.

Example formatBB_samples :
  formatBB 250 100 = "2.5BB" /\ formatBB 199 100 = "2.0BB"
  /\ formatBB 1 3 = "0.3BB" /\ formatBB (-50) 100 = "-0.5BB"
  /\ formatBB 4000000 2 = "2000000BB".
Proof. vm_compute. auto. Qed.

(** ** The three action labels *)

(** X23: the labels of the table preview and of the tree menu agree with the
    navigator's on folds, calls, checks, raises without a positive amount and
    unknown types.  They part on the rest: for an all-in the preview says
    "All-in" and the menu "All-in" with the amount in big blinds, which the
    navigator's label never equals; a raise of [k] big blinds is "Raise kBB"
    in the preview and "kBB" in the menu. *)
Theorem X23_sibling_labels settings actionType amount k :
  (actionType <> "A" -> (actionType <> "R" \/ amount <= 0) ->
   Preview.formatActionLabel settings actionType amount
   = formatActionLabel actionType amount
   /\ Menu.formatActionLabel actionType amount settings
      = formatActionLabel actionType amount)
  /\ (Preview.formatActionLabel settings "A" amount = "All-in"
      /\ Preview.formatActionLabel settings "A" amount <> formatActionLabel "A" amount
      /\ Menu.formatActionLabel "A" amount settings <> formatActionLabel "A" amount)
  /\ (0 < k -> 0 < bb (blinds settings) -> k * bb (blinds settings) < 2 ^ 53 ->
      Preview.formatActionLabel settings "R" (k * bb (blinds settings))
      = "Raise " +:+ pretty k +:+ "BB"
      /\ Menu.formatActionLabel "R" (k * bb (blinds settings)) settings
         = pretty k +:+ "BB"
      /\ Menu.formatActionLabel "A" (k * bb (blinds settings)) settings
         = "All-in " +:+ pretty k +:+ "BB").
Proof.
  split; [|split].
  - intros Hallin Hraise.
    unfold Preview.formatActionLabel, Menu.formatActionLabel, formatActionLabel.
    repeat case_decide; simplify_eq; try done; try lia;
      destruct Hraise; done || lia.
  - unfold Preview.formatActionLabel, Menu.formatActionLabel, formatActionLabel.
    cbn. split; [done|]. split; [done|].
    repeat case_decide; try done; cbn; intros Heq; discriminate Heq.
  - intros Hk Hbb Hrange.
    unfold Preview.formatActionLabel, Menu.formatActionLabel, Preview.formatBB.
    unfold JS.num_or.
    repeat first [rewrite decide_True by (done || nia)
                 |rewrite decide_False by (done || nia)].
    rewrite formatBB_multiple by nia. done.
Qed.

Lemma X23_sibling_labels_witness :
  Preview.formatActionLabel sixMax "R" 30 = "Raise 3BB"
  /\ Menu.formatActionLabel "R" 30 sixMax = "3BB"
  /\ Menu.formatActionLabel "A" 30 sixMax = "All-in 3BB".
Proof.
  apply (proj2 (proj2 (X23_sibling_labels sixMax "R" 0 3))); cbn; lia.
Defined.
